(** * AT24CXX EEPROM controller (at24cxx.h / at24cxx.cpp)

    A shallow embedding of the driver class [PeripheralIO::AT24CXX] and of the
    Arduino services it calls (the [TwoWire] bus object, [pinMode],
    [digitalWrite], [delay]), followed by theorems about the bus traffic the
    driver produces.

    Integers are [Z]; every store into a [uint8_t] or [uint32_t] object is
    written out as a reduction modulo 2^8 or 2^32.  The target
    has a 32-bit [int] (the catalog constants shift by 20, 28 and 30 bits, and
    the test project runs on an ESP32), so [uint16_t + uint8_t] is computed in
    [int] without wrap-around. *)

From Stdlib Require Import ZArith List Bool Lia.
Import ListNotations.
Open Scope Z_scope.

(** ** Fixed-width unsigned integers *)

Definition u8 (z : Z) : Z := z mod 2 ^ 8.
Definition u32 (z : Z) : Z := z mod 2 ^ 32.

(** ** The Arduino environment *)

Inductive pin_mode := INPUT | OUTPUT.
Inductive level := LOW | HIGH.

(** Calls the driver makes to its external collaborators, in program order. *)
Inductive event :=
| BeginTransmission (address : Z)
| WriteByte (data : Z)
| EndTransmission (sendStop : bool)
| RequestFrom (address quantity : Z)
| PinMode (pin : Z) (mode : pin_mode)
| DigitalWrite (pin : Z) (val : level)
| Delay (ms : Z).

(** The far side of a [TwoWire] object: the status [endTransmission] returns
    and the bytes a [requestFrom] puts into the receive buffer, each as a
    function of everything that happened so far. *)
Record TwoWire := {
  status : list event -> Z;
  reply : list event -> Z -> Z -> list Z
}.

(** The mutable part of the environment: the calls made so far and the
    receive buffer of the bus object. *)
Record World := {
  trace : list event;
  rx : list Z
}.

Definition emit (e : event) (w : World) : World :=
  {| trace := trace w ++ [e]; rx := rx w |}.

Module Wire.

Definition beginTransmission (address : Z) (w : World) : World :=
  emit (BeginTransmission address) w.

Definition write (data : Z) (w : World) : World :=
  emit (WriteByte data) w.

Definition endTransmission (tw : TwoWire) (sendStop : bool) (w : World)
  : Z * World :=
  let w' := emit (EndTransmission sendStop) w in
  (status tw (trace w'), w').

Definition requestFrom (tw : TwoWire) (address quantity : Z) (w : World)
  : World :=
  let w' := emit (RequestFrom address quantity) w in
  {| trace := trace w'; rx := reply tw (trace w') address quantity |}.

Definition available (w : World) : Z := Z.of_nat (length (rx w)).

Definition read (w : World) : Z * World :=
  match rx w with
  | [] => (-1, w)
  | b :: rest => (b, {| trace := trace w; rx := rest |})
  end.

End Wire.

Definition pinMode (pin : Z) (mode : pin_mode) (w : World) : World :=
  emit (PinMode pin mode) w.

Definition digitalWrite (pin : Z) (val : level) (w : World) : World :=
  emit (DigitalWrite pin val) w.

Definition delay (ms : Z) (w : World) : World :=
  emit (Delay ms) w.

(** A byte array seen through a pointer: the cell at each index. *)
Definition buffer := Z -> Z.

Definition store (vals : buffer) (i b : Z) : buffer :=
  fun k => if k =? i then b else vals k.

(** ** Chip selection and constants (at24cxx.cpp, end of file) *)

(** word size | page size | addr bytes | addr overflow bits *)
Definition chip_constant (size page bytes ov : Z) : Z :=
  u32 (Z.lor (Z.lor (Z.lor size (Z.shiftl page 20)) (Z.shiftl bytes 28))
             (Z.shiftl ov 30)).

Definition AT24C01 : Z := chip_constant 128 8 1 0.
Definition AT24C02 : Z := chip_constant 256 8 1 0.
Definition AT24C04 : Z := chip_constant 512 16 1 1.
Definition AT24C08 : Z := chip_constant 1024 16 1 2.
Definition AT24C16 : Z := chip_constant 2048 16 1 3.
Definition AT24C32 : Z := chip_constant 4096 32 2 0.
Definition AT24C64 : Z := chip_constant 8192 32 2 0.
Definition AT24C128 : Z := chip_constant 16384 64 2 0.
Definition AT24C256 : Z := chip_constant 32768 64 2 0.
Definition AT24C512 : Z := chip_constant 65536 128 2 0.

Definition catalog : list Z :=
  [AT24C01; AT24C02; AT24C04; AT24C08; AT24C16;
   AT24C32; AT24C64; AT24C128; AT24C256; AT24C512].

Definition AT24CXX_ADDR : Z := 0x50.
Definition I2C_READ_BUFFER_SIZE : Z := 32.
Definition EEPROM_WRITE_CYCLE_TIME_MS : Z := 5.

(** ** The controller object *)

Record AT24CXX := {
  _chip_addr : Z;
  _chip_size : Z;
  _page_size : Z;
  _addr_bytes : Z;
  _addr_ov_bits : Z;
  _addr_size : Z;
  _mode : Z;
  _wp_pin : Z;
  _wire : option TwoWire
}.

(** The constructor.  [_wp_pin] is a [uint8_t]: the initialiser -1 is stored
    as 255. *)
Definition AT24CXX_new : AT24CXX := {|
  _chip_addr := 0;
  _chip_size := 0;
  _page_size := 0;
  _addr_bytes := 0;
  _addr_ov_bits := 0;
  _addr_size := 0;
  _mode := 0;
  _wp_pin := u8 (-1);
  _wire := None
|}.

(** A bus that never answers; it stands for [*_wire] where [_wire] is null.
    The driver dereferences [_wire] only under [_mode], which [begin] sets
    together with [_wire]. *)
Definition null_wire : TwoWire :=
  {| status := fun _ => 4; reply := fun _ _ _ => [] |}.

Definition deref (p : option TwoWire) : TwoWire :=
  match p with
  | Some tw => tw
  | None => null_wire
  end.

(** [_wp_pin != -1]: the [uint8_t] member is promoted to [int] and compared
    with the [int] -1. *)
Definition wp_pin_set (c : AT24CXX) : bool := negb (_wp_pin c =? -1).

(** [begin(chip, chip_addr, wire, wp_pin)]; the parameters are [uint32_t],
    [uint8_t], [TwoWire&] and [uint8_t] (default -1). *)
Definition begin (chip chip_addr : Z) (wire : TwoWire) (wp_pin : Z)
    (c : AT24CXX) (w : World) : AT24CXX * World :=
  let chip := u32 chip in
  let chip_addr := u8 chip_addr in
  let wp_pin := u8 wp_pin in
  let c' := {|
    _chip_addr := u8 (Z.lor AT24CXX_ADDR (Z.land chip_addr 0x07));
    _chip_size := Z.land chip 0x0001FFFF;
    _page_size := u8 (Z.shiftr (Z.land chip 0x0FF00000) 20);
    _addr_bytes := u8 (Z.shiftr (Z.land chip 0x30000000) 28);
    _addr_ov_bits := u8 (Z.shiftr (Z.land chip 0xC0000000) 30);
    _addr_size := _addr_size c;
    _mode := 1;
    _wp_pin := wp_pin;
    _wire := Some wire
  |} in
  let w' :=
    if wp_pin_set c'
    then digitalWrite (_wp_pin c') LOW (pinMode (_wp_pin c') OUTPUT w)
    else w in
  (c', w').

(** [isConnected()] *)
Definition isConnected (c : AT24CXX) (w : World) : bool * World :=
  if negb (_mode c =? 0) then
    let w := Wire.beginTransmission (_chip_addr c) w in
    let '(st, w) := Wire.endTransmission (deref (_wire c)) true w in
    if st =? 0 then (true, w) else (false, w)
  else (false, w).

(** [setWriteProtect()] and [clearWriteProtect()] *)
Definition setWriteProtect (c : AT24CXX) (w : World) : World :=
  if wp_pin_set c then digitalWrite (_wp_pin c) HIGH w else w.

Definition clearWriteProtect (c : AT24CXX) (w : World) : World :=
  if wp_pin_set c then digitalWrite (_wp_pin c) LOW w else w.

(** ** The transfer engines *)

(** [(uint32_t)(address + n) <= _chip_size], the guard of both engines. *)
Definition in_range (c : AT24CXX) (address n : Z) : bool :=
  u32 (address + n) <=? _chip_size c.

(** The same guard where [int] has 16 bits: [address + n] is then an
    [unsigned int] sum, reduced modulo 2^16 before the cast. *)
Definition in_range_int16 (c : AT24CXX) (address n : Z) : bool :=
  u32 ((address + n) mod 2 ^ 16) <=? _chip_size c.

(** The device address used on parts with overflow bits:
    [(uint8_t)((_chip_addr & 0xF8) | (((address + n_sent) & 0x0700) >> 8))]. *)
Definition overflow_addr (c : AT24CXX) (cursor : Z) : Z :=
  u8 (Z.lor (Z.land (_chip_addr c) 0xF8)
            (Z.shiftr (Z.land cursor 0x0700) 8)).

(** The page size [writeN] splits by (its local [page_size]). *)
Definition effective_page_size (c : AT24CXX) (n : Z) : Z :=
  if (1 <? _addr_bytes c) && (30 <? n) then 16 else u8 (_page_size c).

(** A loop that has not finished when the step budget is used up yields
    [None] in place of its value; the world reached so far is kept. *)

(** [while ((j++ < page_size) && (n_sent < n)) _wire->write(vals[n_sent++]);]
    The result carries [j] and [n_sent] as the loop leaves them. *)
Fixpoint write_page (fuel : nat) (page_size n : Z) (vals : buffer)
    (j n_sent : Z) (w : World) : option (Z * Z) * World :=
  match fuel with
  | O => (None, w)
  | S fuel' =>
      let below := j <? page_size in
      let j := u8 (j + 1) in
      if below && (n_sent <? n)
      then write_page fuel' page_size n vals j (u8 (n_sent + 1))
             (Wire.write (vals n_sent) w)
      else (Some (j, n_sent), w)
  end.

(** [for (uint8_t i = 0; i < pages_req; i++) { ... }] of [writeN]; [addr],
    [j] and [n_sent] are the locals the body updates. *)
Fixpoint write_pages (fuel : nat) (c : AT24CXX) (address : Z) (vals : buffer)
    (n page_size pages_req : Z) (i addr j n_sent : Z) (w : World)
  : option unit * World :=
  match fuel with
  | O => (None, w)
  | S fuel' =>
      if i <? pages_req then
        let addr :=
          if negb (_addr_ov_bits c =? 0)
          then overflow_addr c (address + n_sent)
          else addr in
        let w := Wire.beginTransmission addr w in
        let w :=
          if 1 <? _addr_bytes c
          then Wire.write (u8 (Z.shiftr (address + n_sent) 8)) w
          else w in
        let w := Wire.write (u8 (address + n_sent)) w in
        match write_page fuel' page_size n vals j n_sent w with
        | (None, w) => (None, w)
        | (Some (_, n_sent), w) =>
            let '(_, w) := Wire.endTransmission (deref (_wire c)) true w in
            let j := 0 in
            let w := delay EEPROM_WRITE_CYCLE_TIME_MS w in
            write_pages fuel' c address vals n page_size pages_req
              (u8 (i + 1)) addr j n_sent w
        end
      else (Some tt, w)
  end.

(** [bool AT24CXX::writeN(uint16_t address, uint8_t* vals, uint8_t n)].
    [/] and [%] of C++ truncate towards zero: [Z.quot] and [Z.rem]. *)
Definition writeN (fuel : nat) (c : AT24CXX) (address : Z) (vals : buffer)
    (n : Z) (w : World) : option bool * World :=
  if negb (_mode c =? 0) && in_range c address n then
    let page_size := effective_page_size c n in
    let j := u8 (Z.rem address page_size) in
    let pages_req := u8 (Z.quot (n + j - 1) page_size + 1) in
    let addr := _chip_addr c in
    let n_sent := 0 in
    match write_pages fuel c address vals n page_size pages_req
            0 addr j n_sent w with
    | (None, w) => (None, w)
    | (Some _, w) => (Some true, w)
    end
  else (Some false, w).

(** [while (_wire->available()) vals[bytes_read++] = _wire->read();]
    Every [read] takes one byte out of the receive buffer, so the body runs
    once per byte that is available when the loop is entered. *)
Fixpoint drain (available : nat) (vals : buffer) (bytes_read : Z) (w : World)
  : buffer * Z * World :=
  match available with
  | O => (vals, bytes_read, w)
  | S available' =>
      let '(b, w) := Wire.read w in
      drain available' (store vals bytes_read (u8 b)) (u8 (bytes_read + 1)) w
  end.

(** [while (bytes_read < n) { ... }] of [readN]. *)
Fixpoint read_cycles (fuel : nat) (c : AT24CXX) (addr n : Z) (vals : buffer)
    (bytes_read : Z) (w : World) : option unit * buffer * World :=
  match fuel with
  | O => (None, vals, w)
  | S fuel' =>
      if bytes_read <? n then
        let bytes_per_cycle :=
          if I2C_READ_BUFFER_SIZE <? n - bytes_read
          then I2C_READ_BUFFER_SIZE
          else u8 (n - bytes_read) in
        let w := Wire.requestFrom (deref (_wire c)) addr bytes_per_cycle w in
        let '(vals, bytes_read, w) :=
          drain (Z.to_nat (Wire.available w)) vals bytes_read w in
        read_cycles fuel' c addr n vals bytes_read w
      else (Some tt, vals, w)
  end.

(** [bool AT24CXX::readN(uint16_t address, uint8_t* vals, uint8_t n)] *)
Definition readN (fuel : nat) (c : AT24CXX) (address : Z) (vals : buffer)
    (n : Z) (w : World) : option bool * buffer * World :=
  if negb (_mode c =? 0) && in_range c address n then
    let addr :=
      if negb (_addr_ov_bits c =? 0)
      then overflow_addr c (address + 0)
      else _chip_addr c in
    let w := Wire.beginTransmission addr w in
    let w :=
      if 1 <? _addr_bytes c
      then Wire.write (u8 (Z.shiftr address 8)) w
      else w in
    let w := Wire.write (u8 address) w in
    let '(_, w) := Wire.endTransmission (deref (_wire c)) false w in
    let bytes_read := 0 in
    match read_cycles fuel c addr n vals bytes_read w with
    | (None, vals, w) => (None, vals, w)
    | (Some _, vals, w) => (Some true, vals, w)
    end
  else (Some false, vals, w).

(** ** The public methods *)

(** [bool write(uint16_t address, uint8_t val)] *)
Definition write_byte (fuel : nat) (c : AT24CXX) (address val : Z) (w : World)
  : option bool * World :=
  let byte : buffer := fun _ => u8 val in
  writeN fuel c address byte 1 w.

(** [bool write(uint16_t address, uint8_t vals[], uint8_t n)] *)
Definition write_vals (fuel : nat) (c : AT24CXX) (address : Z) (vals : buffer)
    (n : Z) (w : World) : option bool * World :=
  writeN fuel c address vals n w.

(** [bool write(uint16_t address, const char str[], uint8_t n)] *)
Definition write_str (fuel : nat) (c : AT24CXX) (address : Z) (str : buffer)
    (n : Z) (w : World) : option bool * World :=
  writeN fuel c address str n w.

(** [uint8_t read(uint16_t address)]; [byte0] is the indeterminate content of
    the uninitialised local [byte]. *)
Definition read_byte (fuel : nat) (c : AT24CXX) (address : Z) (byte0 : Z)
    (w : World) : option Z * World :=
  let byte : buffer := fun _ => byte0 in
  match readN fuel c address byte 1 w with
  | (None, _, w) => (None, w)
  | (Some _, byte, w) => (Some (byte 0), w)
  end.

(** [bool read(uint16_t address, uint8_t* vals, uint8_t n)] *)
Definition read_vals (fuel : nat) (c : AT24CXX) (address : Z) (vals : buffer)
    (n : Z) (w : World) : option bool * buffer * World :=
  readN fuel c address vals 1 w.

(** [bool read(uint16_t address, char str[], uint8_t n)] *)
Definition read_str (fuel : nat) (c : AT24CXX) (address : Z) (str : buffer)
    (n : Z) (w : World) : option bool * buffer * World :=
  readN fuel c address str n w.

(** ** Reading a trace *)

(** The world after some more calls. *)
Definition after (w : World) (evs : list event) : World :=
  {| trace := trace w ++ evs; rx := rx w |}.

(** One bus write transaction: what was passed to [beginTransmission], the
    bytes queued by [write], and the argument of [endTransmission]. *)
Record transaction := {
  dev_addr : Z;
  sent : list Z;
  stop : bool
}.

Fixpoint transactions_from (cur : option (Z * list Z)) (evs : list event)
  : list transaction :=
  match evs with
  | [] => []
  | BeginTransmission a :: rest => transactions_from (Some (a, [])) rest
  | WriteByte b :: rest =>
      match cur with
      | Some (a, bs) => transactions_from (Some (a, bs ++ [b])) rest
      | None => transactions_from None rest
      end
  | EndTransmission s :: rest =>
      match cur with
      | Some (a, bs) =>
          {| dev_addr := a; sent := bs; stop := s |}
            :: transactions_from None rest
      | None => transactions_from None rest
      end
  | _ :: rest => transactions_from cur rest
  end.

Definition transactions (evs : list event) : list transaction :=
  transactions_from None evs.

(** The word-address bytes the engines put in front of the data. *)
Definition word_address_length (c : AT24CXX) : nat :=
  if 1 <? _addr_bytes c then 2%nat else 1%nat.

Definition payload (c : AT24CXX) (t : transaction) : list Z :=
  skipn (word_address_length c) (sent t).

Definition payload_length (c : AT24CXX) (t : transaction) : Z :=
  Z.of_nat (length (payload c t)).

(** Each transaction with its cursor: the start address plus the payload
    bytes of the transactions before it. *)
Fixpoint with_cursors (c : AT24CXX) (cursor : Z) (txs : list transaction)
  : list (Z * transaction) :=
  match txs with
  | [] => []
  | t :: rest =>
      (cursor, t) :: with_cursors c (cursor + payload_length c t) rest
  end.

(** The device addresses handed to the bus, by [beginTransmission] and by
    [requestFrom]. *)
Fixpoint bus_addresses (evs : list event) : list Z :=
  match evs with
  | [] => []
  | BeginTransmission a :: rest => a :: bus_addresses rest
  | RequestFrom a _ :: rest => a :: bus_addresses rest
  | _ :: rest => bus_addresses rest
  end.

(** The quantities asked for by [requestFrom]. *)
Fixpoint requests (evs : list event) : list Z :=
  match evs with
  | [] => []
  | RequestFrom _ q :: rest => q :: requests rest
  | _ :: rest => requests rest
  end.

Definition ceil_div (a b : Z) : Z := (a + b - 1) / b.

(** A controller as [begin] leaves it for a chip of the catalog. *)
Definition configured (chip select : Z) (wire : TwoWire) (wp_pin : Z)
    (c0 : AT24CXX) (w0 : World) : AT24CXX :=
  fst (begin chip select wire wp_pin c0 w0).

(** A bus whose chip acknowledges and delivers every byte asked for. *)
Definition steady_wire : TwoWire :=
  {| status := fun _ => 0;
     reply := fun _ _ quantity => repeat 0xA5 (Z.to_nat quantity) |}.

Definition idle : World := {| trace := []; rx := [] |}.

(** ** The paged write in closed form *)

(** The indices [start, start + 1, ...], [len] of them. *)
Fixpoint zseq (start : Z) (len : nat) : list Z :=
  match len with
  | O => []
  | S len' => start :: zseq (start + 1) len'
  end.

(** The device address of the transaction at [cursor]. *)
Definition device_address (c : AT24CXX) (cursor : Z) : Z :=
  if negb (_addr_ov_bits c =? 0) then overflow_addr c cursor else _chip_addr c.

Definition word_address (c : AT24CXX) (cursor : Z) : list Z :=
  (if 1 <? _addr_bytes c then [u8 (Z.shiftr cursor 8)] else [])
    ++ [u8 cursor].

(** The calls of one pass through the body of the loop of [writeN]. *)
Definition page_events (c : AT24CXX) (cursor : Z) (data : list Z)
  : list event :=
  BeginTransmission (device_address c cursor)
    :: map WriteByte (word_address c cursor ++ data)
    ++ [EndTransmission true; Delay EEPROM_WRITE_CYCLE_TIME_MS].

Definition page_transaction (c : AT24CXX) (cursor : Z) (data : list Z)
  : transaction :=
  {| dev_addr := device_address c cursor;
     sent := word_address c cursor ++ data;
     stop := true |}.

(** The pieces [count] passes cut a request into: for each pass the number of
    bytes sent before it and the number it sends. *)
Fixpoint chunks (count : nat) (page_size n j n_sent : Z) : list (Z * Z) :=
  match count with
  | O => []
  | S count' =>
      let len := Z.min (page_size - j) (n - n_sent) in
      (n_sent, len) :: chunks count' page_size n 0 (n_sent + len)
  end.

Definition chunk_data (vals : buffer) (ch : Z * Z) : list Z :=
  map vals (zseq (fst ch) (Z.to_nat (snd ch))).

(** ** The address encoder as the specification words it *)

(** Start from [0x50 | (select & 0x07)]; when there are [k > 0] overflow
    bits, replace the low [k] bits by bits [8 + k - 1 : 8] of the address and
    keep the select bits above them. *)
Definition spec_device_address (k select cursor : Z) : Z :=
  let base := Z.lor 0x50 (Z.land select 0x07) in
  if 0 <? k
  then Z.lor (Z.land base (Z.lnot (Z.ones k)))
             (Z.land (Z.shiftr cursor 8) (Z.ones k))
  else base.

(** What every catalog constant leaves in the members of the controller. *)
Record geometry (c : AT24CXX) : Prop := {
  geo_mode : _mode c = 1;
  geo_chip_addr : 0x50 <= _chip_addr c <= 0x57;
  geo_page : 8 <= _page_size c <= 128;
  geo_bytes : _addr_bytes c = 1 \/ _addr_bytes c = 2;
  geo_size : 128 <= _chip_size c <= 65536;
  geo_ov : 0 <= _addr_ov_bits c <= 3;
  geo_ov_size :
    0 < _addr_ov_bits c ->
    _addr_bytes c = 1 /\ _chip_size c = 256 * 2 ^ _addr_ov_bits c
}.

(** ** Calls of the public methods *)

(** The calls made between two worlds. *)
Definition issued (w w' : World) : list event :=
  skipn (length (trace w)) (trace w').

Inductive call :=
| IsConnected
| WriteOne (address val : Z)
| WriteVals (address : Z) (vals : buffer) (n : Z)
| WriteStr (address : Z) (str : buffer) (n : Z)
| ReadOne (address byte0 : Z)
| ReadVals (address : Z) (vals : buffer) (n : Z)
| ReadStr (address : Z) (str : buffer) (n : Z)
| SetWriteProtect
| ClearWriteProtect.

(** The world a call of a public method leaves behind. *)
Definition perform (fuel : nat) (c : AT24CXX) (op : call) (w : World)
  : World :=
  match op with
  | IsConnected => snd (isConnected c w)
  | WriteOne address val => snd (write_byte fuel c address val w)
  | WriteVals address vals n => snd (write_vals fuel c address vals n w)
  | WriteStr address str n => snd (write_str fuel c address str n w)
  | ReadOne address byte0 => snd (read_byte fuel c address byte0 w)
  | ReadVals address vals n => snd (read_vals fuel c address vals n w)
  | ReadStr address str n => snd (read_str fuel c address str n w)
  | SetWriteProtect => setWriteProtect c w
  | ClearWriteProtect => clearWriteProtect c w
  end.

(** What a method whose result is [bool] returned, [None] for the methods
    without such a result and for a call that has not finished. *)
Definition verdict (fuel : nat) (c : AT24CXX) (op : call) (w : World)
  : option bool :=
  match op with
  | IsConnected => Some (fst (isConnected c w))
  | WriteOne address val => fst (write_byte fuel c address val w)
  | WriteVals address vals n => fst (write_vals fuel c address vals n w)
  | WriteStr address str n => fst (write_str fuel c address str n w)
  | ReadVals address vals n => fst (fst (read_vals fuel c address vals n w))
  | ReadStr address str n => fst (fst (read_str fuel c address str n w))
  | ReadOne _ _ | SetWriteProtect | ClearWriteProtect => None
  end.

(** A bus that delivers exactly as many bytes as are asked for. *)
Definition responsive (tw : TwoWire) : Prop :=
  forall past address quantity,
    length (reply tw past address quantity) = Z.to_nat quantity.

(** The bytes the bus delivered in answer to the calls [evs] made after
    [past]. *)
Fixpoint delivered (tw : TwoWire) (past evs : list event) : list Z :=
  match evs with
  | [] => []
  | e :: rest =>
      match e with
      | RequestFrom a q => reply tw (past ++ [e]) a q
      | _ => []
      end ++ delivered tw (past ++ [e]) rest
  end.

(** Successive cells of an array, from index [i] on. *)
Fixpoint store_list (vals : buffer) (i : Z) (bs : list Z) : buffer :=
  match bs with
  | [] => vals
  | b :: rest => store_list (store vals i b) (i + 1) rest
  end.

Definition total (l : list Z) : Z := fold_right Z.add 0 l.

Definition valid_device_address (a : Z) : Prop :=
  0x50 <= a <= 0x57 /\ Z.shiftr a 4 = 0x5.

(** ** Further readings of a trace and of the controller *)

(** The waits asked of [delay], in milliseconds. *)
Fixpoint delays (evs : list event) : list Z :=
  match evs with
  | [] => []
  | Delay ms :: rest => ms :: delays rest
  | _ :: rest => delays rest
  end.

(** The calls made to [pinMode] and [digitalWrite]. *)
Fixpoint pin_calls (evs : list event) : list event :=
  match evs with
  | [] => []
  | PinMode p m :: rest => PinMode p m :: pin_calls rest
  | DigitalWrite p v :: rest => DigitalWrite p v :: pin_calls rest
  | _ :: rest => pin_calls rest
  end.

(** The address phase of [readN]: the calls before the first
    [requestFrom]. *)
Definition address_phase (c : AT24CXX) (address : Z) : list event :=
  BeginTransmission (device_address c address)
    :: map WriteByte (word_address c address)
    ++ [EndTransmission false].

(** A bus on which no chip answers a read: [requestFrom] leaves the receive
    buffer empty. *)
Definition silent (tw : TwoWire) : Prop :=
  forall past address quantity, reply tw past address quantity = [].

(** The states a controller object can be in: constructed, then any number
    of calls of [begin] (every other method is [const]). *)
Inductive reachable : AT24CXX -> Prop :=
| reachable_new : reachable AT24CXX_new
| reachable_begin chip chip_addr wire wp_pin c w :
    reachable c -> reachable (fst (begin chip chip_addr wire wp_pin c w)).

(** The memory address a write transaction selects on the chip: the
    word-address bytes, most significant first, and above them, on parts
    with overflow bits, what the device address carries beyond 0x50. *)
Definition selected_address (c : AT24CXX) (t : transaction) : Z :=
  if 1 <? _addr_bytes c
  then 256 * nth 0 (sent t) 0 + nth 1 (sent t) 0
  else 256 * (if _addr_ov_bits c =? 0 then 0 else dev_addr t - AT24CXX_ADDR)
       + nth 0 (sent t) 0.

(** ** The catalog as the source writes it *)

(** Word size, page size, address bytes and address overflow bits of the ten
    chips, in the order of [catalog]. *)
Definition descriptors : list (Z * Z * Z * Z) :=
  [(128, 8, 1, 0); (256, 8, 1, 0); (512, 16, 1, 1); (1024, 16, 1, 2);
   (2048, 16, 1, 3); (4096, 32, 2, 0); (8192, 32, 2, 0); (16384, 64, 2, 0);
   (32768, 64, 2, 0); (65536, 128, 2, 0)].

(** The page size a write of [n] bytes is to be split by, in the words of
    the specification: the page size of the chip, except 16 on parts with
    two word-address bytes when [n > 30]. *)
Definition spec_page_size (page bytes n : Z) : Z :=
  if (bytes =? 2) && (30 <? n) then 16 else page.

(** Every [endTransmission] asks for a stop and is directly followed by
    [delay(EEPROM_WRITE_CYCLE_TIME_MS)], and [delay] is called nowhere
    else. *)
Fixpoint waits_after_stop (evs : list event) : bool :=
  match evs with
  | [] => true
  | EndTransmission sendStop :: rest =>
      sendStop &&
      match rest with
      | Delay ms :: rest' =>
          (ms =? EEPROM_WRITE_CYCLE_TIME_MS) && waits_after_stop rest'
      | _ => false
      end
  | Delay _ :: _ => false
  | _ :: rest => waits_after_stop rest
  end.

(** ** Arithmetic and list facts *)

Lemma u8_small z : 0 <= z < 256 -> u8 z = z.
Proof. intros H. unfold u8. apply Z.mod_small. lia. Qed.

Lemma u32_small z : 0 <= z < 2 ^ 32 -> u32 z = z.
Proof. intros H. unfold u32. apply Z.mod_small. lia. Qed.

Lemma ceil_div_bounds a b :
  0 < b -> (ceil_div a b - 1) * b < a <= ceil_div a b * b.
Proof.
  intros Hb. unfold ceil_div.
  pose proof (Z.div_mod (a + b - 1) b ltac:(lia)) as E.
  pose proof (Z.mod_pos_bound (a + b - 1) b Hb) as B.
  nia.
Qed.

Lemma ceil_div_unique a b q :
  0 < b -> (q - 1) * b < a <= q * b -> ceil_div a b = q.
Proof.
  intros Hb H. pose proof (ceil_div_bounds a b Hb) as B. nia.
Qed.

(** The driver's page count is the ceiling of the quotient. *)
Lemma pages_req_ceil n j p :
  0 < p -> 1 <= n -> 0 <= j ->
  Z.quot (n + j - 1) p + 1 = ceil_div (n + j) p.
Proof.
  intros Hp Hn Hj. rewrite Z.quot_div_nonneg by lia.
  symmetry. apply ceil_div_unique; [lia|].
  pose proof (Z.div_mod (n + j - 1) p ltac:(lia)) as E.
  pose proof (Z.mod_pos_bound (n + j - 1) p Hp) as B.
  nia.
Qed.

Lemma after_nil w : after w [] = w.
Proof. destruct w. unfold after. simpl. now rewrite app_nil_r. Qed.

Lemma after_after w a b : after (after w a) b = after w (a ++ b).
Proof. unfold after. simpl. now rewrite app_assoc. Qed.

Lemma emit_after e w : emit e w = after w [e].
Proof. reflexivity. Qed.

Lemma issued_app w w' evs : trace w' = trace w ++ evs -> issued w w' = evs.
Proof.
  intros H. unfold issued. rewrite H, skipn_app, skipn_all, Nat.sub_diag.
  reflexivity.
Qed.

Lemma issued_after w evs : issued w (after w evs) = evs.
Proof. now apply issued_app. Qed.

Lemma issued_same w : issued w w = [].
Proof. apply issued_app. now rewrite app_nil_r. Qed.

Lemma zseq_length start len : length (zseq start len) = len.
Proof.
  revert start. induction len as [|len IH]; intros start; simpl; auto.
Qed.

(** ** The write engine *)

Section WriteEngine.

Variable c : AT24CXX.
Variable address : Z.
Variable vals : buffer.
Variable n : Z.
Variable page_size : Z.

Hypothesis page_size_u8 : 0 < page_size <= 255.
Hypothesis n_u8 : 0 <= n <= 255.

(** The inner loop sends bytes up to the page boundary or the end of the
    request, whichever comes first. *)
Lemma write_page_run fuel j n_sent w :
  0 <= j <= page_size -> 0 <= n_sent <= n ->
  let len := Z.min (page_size - j) (n - n_sent) in
  (Z.to_nat len < fuel)%nat ->
  exists j',
    write_page fuel page_size n vals j n_sent w =
    (Some (j', n_sent + len),
     after w (map WriteByte (map vals (zseq n_sent (Z.to_nat len))))).
Proof.
  revert j n_sent w.
  induction fuel as [|fuel IH]; intros j n_sent w Hj Hs len Hfuel; [lia|].
  simpl.
  destruct (j <? page_size) eqn:Ej; simpl.
  - destruct (n_sent <? n) eqn:Es.
    + apply Z.ltb_lt in Ej, Es.
      rewrite !u8_small by lia.
      destruct (IH (j + 1) (n_sent + 1) (Wire.write (vals n_sent) w))
        as [j' E]; [lia | lia | subst len; lia |].
      exists j'. rewrite E. clear E IH.
      replace (Z.min (page_size - (j + 1)) (n - (n_sent + 1)))
        with (len - 1) by (subst len; lia).
      replace (Z.to_nat len) with (S (Z.to_nat (len - 1)))
        by (subst len; lia).
      simpl. unfold Wire.write. rewrite emit_after, after_after. simpl.
      replace (n_sent + 1 + (len - 1)) with (n_sent + len) by lia.
      reflexivity.
    + apply Z.ltb_ge in Es.
      exists (u8 (j + 1)).
      replace len with 0 by (subst len; lia).
      simpl. now rewrite after_nil, Z.add_0_r.
  - apply Z.ltb_ge in Ej.
    exists (u8 (j + 1)).
    replace len with 0 by (subst len; lia).
    simpl. now rewrite after_nil, Z.add_0_r.
Qed.

(** The outer loop, pass by pass. *)
Lemma write_pages_run count : forall fuel pages_req i addr j n_sent w,
  0 <= j <= page_size -> 0 <= n_sent <= n ->
  0 <= i -> i + Z.of_nat count = pages_req -> pages_req <= 255 ->
  (_addr_ov_bits c = 0 -> addr = _chip_addr c) ->
  (Z.of_nat count + page_size + 1 < Z.of_nat fuel) ->
  write_pages fuel c address vals n page_size pages_req i addr j n_sent w =
  (Some tt,
   after w (flat_map
              (fun ch => page_events c (address + fst ch) (chunk_data vals ch))
              (chunks count page_size n j n_sent))).
Proof.
  induction count as [|count IH];
    intros fuel pages_req i addr j n_sent w Hj Hs Hi Hc Hp Haddr Hfuel.
  - destruct fuel as [|fuel]; [lia|]. simpl.
    replace (i <? pages_req) with false by (symmetry; apply Z.ltb_ge; lia).
    now rewrite after_nil.
  - destruct fuel as [|fuel]; [lia|].
    cbn [write_pages chunks flat_map].
    replace (i <? pages_req) with true by (symmetry; apply Z.ltb_lt; lia).
    set (len := Z.min (page_size - j) (n - n_sent)).
    set (w1 := Wire.write _ _).
    destruct (write_page_run fuel j n_sent w1 Hj Hs) as [j' E].
    { fold len. lia. }
    fold len in E. rewrite E. clear E.
    cbn [Wire.endTransmission fst snd].
    assert (Hu : u8 (i + 1) = i + 1) by (apply u8_small; lia).
    rewrite Hu.
    rewrite (IH fuel pages_req (i + 1)); try (subst len; lia).
    + subst w1. unfold delay, Wire.write, Wire.beginTransmission.
      rewrite !emit_after.
      assert (Hdev : (if negb (_addr_ov_bits c =? 0)
                      then overflow_addr c (address + n_sent) else addr)
                     = device_address c (address + n_sent)).
      { unfold device_address. destruct (_addr_ov_bits c =? 0) eqn:Eo; simpl;
          [apply Z.eqb_eq in Eo; auto | reflexivity]. }
      rewrite Hdev.
      unfold page_events, word_address, chunk_data. cbn [fst snd].
      destruct (1 <? _addr_bytes c);
        rewrite ?emit_after, !after_after; f_equal;
        cbn [app map]; rewrite ?map_app, <- ?app_assoc; reflexivity.
    + intros Eo. destruct (_addr_ov_bits c =? 0) eqn:E; simpl; auto.
      apply Z.eqb_neq in E. contradiction.
Qed.

End WriteEngine.

(** ** Transactions of the paged write *)

Lemma transactions_from_writes ds : forall a bs rest,
  transactions_from (Some (a, bs)) (map WriteByte ds ++ rest) =
  transactions_from (Some (a, bs ++ ds)) rest.
Proof.
  induction ds as [|d ds IH]; intros a bs rest; simpl.
  - now rewrite app_nil_r.
  - rewrite IH, <- app_assoc. reflexivity.
Qed.

Lemma transactions_page c cursor data rest :
  transactions (page_events c cursor data ++ rest) =
  page_transaction c cursor data :: transactions rest.
Proof.
  unfold transactions, page_events. cbn [app transactions_from].
  rewrite <- app_assoc, transactions_from_writes. reflexivity.
Qed.

Lemma transactions_pages c address vals l :
  transactions
    (flat_map (fun ch => page_events c (address + fst ch) (chunk_data vals ch))
       l) =
  map (fun ch => page_transaction c (address + fst ch) (chunk_data vals ch)) l.
Proof.
  induction l as [|ch l IH]; [reflexivity|].
  cbn [flat_map map]. now rewrite transactions_page, IH.
Qed.

Lemma bus_addresses_app a b :
  bus_addresses (a ++ b) = bus_addresses a ++ bus_addresses b.
Proof.
  induction a as [|e a IH]; [reflexivity|].
  destruct e; simpl; now rewrite ?IH.
Qed.

Lemma requests_app a b : requests (a ++ b) = requests a ++ requests b.
Proof.
  induction a as [|e a IH]; [reflexivity|].
  destruct e; simpl; now rewrite ?IH.
Qed.

Lemma payload_page c cursor data :
  payload c (page_transaction c cursor data) = data.
Proof.
  unfold payload, page_transaction, word_address, word_address_length.
  cbn [sent]. destruct (1 <? _addr_bytes c); reflexivity.
Qed.

Lemma chunk_data_length vals ch :
  length (chunk_data vals ch) = Z.to_nat (snd ch).
Proof. unfold chunk_data. now rewrite length_map, zseq_length. Qed.

Lemma chunks_length count : forall page_size n j n_sent,
  length (chunks count page_size n j n_sent) = count.
Proof.
  induction count as [|count IH]; intros; simpl; [reflexivity|].
  now rewrite IH.
Qed.

(** No pass sends more than a page. *)
Lemma chunks_at_most_page count : forall page_size n j n_sent,
  0 <= j ->
  Forall (fun ch => snd ch <= page_size) (chunks count page_size n j n_sent).
Proof.
  induction count as [|count IH]; intros page_size n j n_sent Hj; simpl.
  - constructor.
  - constructor; [simpl; lia | apply IH; lia].
Qed.

(** When the number of passes is the ceiling the driver computes, every pass
    starts inside the request, sends at least one byte, and stays inside. *)
Lemma chunks_inside count : forall page_size n j n_sent,
  0 < page_size -> 0 <= j < page_size -> 0 <= n_sent < n ->
  (Z.of_nat count - 1) * page_size < n - n_sent + j
    <= Z.of_nat count * page_size ->
  Forall (fun ch => 0 <= fst ch < n /\ 0 < snd ch /\ fst ch + snd ch <= n)
    (chunks count page_size n j n_sent).
Proof.
  induction count as [|count IH]; intros page_size n j n_sent Hp Hj Hs Hc.
  - constructor.
  - cbn [chunks]. constructor.
    + cbn [fst snd]. lia.
    + destruct count as [|count]; [constructor|].
      apply IH; try lia; nia.
Qed.

(** The cursor of each pass is the start address plus the bytes already
    sent. *)
Lemma with_cursors_pages c address vals count : forall page_size n j n_sent,
  0 <= j <= page_size -> n_sent <= n ->
  with_cursors c (address + n_sent)
    (map (fun ch => page_transaction c (address + fst ch) (chunk_data vals ch))
       (chunks count page_size n j n_sent)) =
  map (fun ch => (address + fst ch,
                  page_transaction c (address + fst ch) (chunk_data vals ch)))
    (chunks count page_size n j n_sent).
Proof.
  induction count as [|count IH]; intros page_size n j n_sent Hj Hs.
  - reflexivity.
  - cbn [chunks map with_cursors fst]. f_equal.
    unfold payload_length. rewrite payload_page, chunk_data_length.
    cbn [snd].
    replace (address + n_sent +
             Z.of_nat (Z.to_nat (Z.min (page_size - j) (n - n_sent))))
      with (address + (n_sent + Z.min (page_size - j) (n - n_sent))) by lia.
    apply IH; lia.
Qed.

(** After the first pass every pass starts on a page boundary. *)
Lemma chunks_aligned count : forall page_size n address j n_sent,
  0 < page_size -> 0 <= j < page_size -> 0 <= n_sent ->
  (address + n_sent) mod page_size = j ->
  (Z.of_nat count - 1) * page_size < n - n_sent + j ->
  Forall (fun ch => fst ch = n_sent \/ (address + fst ch) mod page_size = 0)
    (chunks count page_size n j n_sent).
Proof.
  induction count as [|count IH];
    intros page_size n address j n_sent Hp Hj Hs Hm Hc.
  - constructor.
  - cbn [chunks]. constructor; [left; reflexivity|].
    destruct count as [|count]; [constructor|].
    assert (Hlen : Z.min (page_size - j) (n - n_sent) = page_size - j) by nia.
    rewrite Hlen.
    assert (Hal : (address + (n_sent + (page_size - j))) mod page_size = 0).
    { replace (address + (n_sent + (page_size - j)))
        with ((address + n_sent - j) + 1 * page_size) by lia.
      rewrite Z.mod_add by lia.
      rewrite <- Hm. rewrite Zminus_mod_idemp_r.
      rewrite Z.sub_diag. apply Z.mod_0_l. lia. }
    eapply Forall_impl;
      [|apply (IH page_size n address 0 (n_sent + (page_size - j)));
        try lia; try exact Hal; nia].
    intros ch [H|H]; [right; rewrite H; exact Hal | right; exact H].
Qed.

Lemma zseq_app start a b :
  zseq start (a + b) = zseq start a ++ zseq (start + Z.of_nat a) b.
Proof.
  revert start. induction a as [|a IH]; intros start.
  - simpl. now rewrite Z.add_0_r.
  - cbn [Nat.add zseq app]. rewrite IH. do 3 f_equal. lia.
Qed.

(** Enough passes send, in order, every cell from [n_sent] up to [n]. *)
Lemma chunks_cover vals count : forall page_size n j n_sent,
  0 < page_size -> 0 <= j < page_size -> 0 <= n_sent <= n ->
  n - n_sent + j <= Z.of_nat count * page_size ->
  concat (map (chunk_data vals) (chunks count page_size n j n_sent)) =
  map vals (zseq n_sent (Z.to_nat (n - n_sent))).
Proof.
  induction count as [|count IH]; intros page_size n j n_sent Hp Hj Hs Hc.
  - simpl. replace (Z.to_nat (n - n_sent)) with O by lia. reflexivity.
  - cbn [chunks map concat].
    set (len := Z.min (page_size - j) (n - n_sent)).
    rewrite IH; try (subst len; nia).
    unfold chunk_data. cbn [fst snd]. rewrite <- map_app. f_equal.
    replace (Z.to_nat (n - n_sent))
      with (Z.to_nat len + Z.to_nat (n - (n_sent + len)))%nat
      by (subst len; lia).
    rewrite zseq_app. do 2 f_equal. subst len. lia.
Qed.

(** ** Controllers of the catalog *)

Lemma land_7_range x : 0 <= Z.land x 7 < 8.
Proof.
  change 7 with (Z.ones 3). rewrite Z.land_ones by lia.
  apply Z.mod_pos_bound. lia.
Qed.

Lemma small_cases k :
  0 <= k < 8 ->
  k = 0 \/ k = 1 \/ k = 2 \/ k = 3 \/ k = 4 \/ k = 5 \/ k = 6 \/ k = 7.
Proof. lia. Qed.

Lemma lor_0x50 k : 0 <= k < 8 -> Z.lor 0x50 k = 0x50 + k.
Proof.
  intros H. apply small_cases in H.
  repeat (destruct H as [-> | H]; [reflexivity|]). now subst.
Qed.

Lemma land_0xF8 a : 0x50 <= a <= 0x57 -> Z.land a 0xF8 = 0x50.
Proof.
  intros H. assert (E : 0 <= a - 0x50 < 8) by lia.
  apply small_cases in E.
  replace a with (0x50 + (a - 0x50)) by lia.
  repeat (destruct E as [-> | E]; [reflexivity|]). now rewrite E.
Qed.

Lemma chip_addr_range select :
  0x50 <= u8 (Z.lor AT24CXX_ADDR (Z.land (u8 select) 0x07)) <= 0x57.
Proof.
  pose proof (land_7_range (u8 select)) as H.
  unfold AT24CXX_ADDR. rewrite lor_0x50 by exact H.
  rewrite u8_small; lia.
Qed.

Lemma configured_geometry chip select wire wp_pin c0 w0 :
  In chip catalog -> geometry (configured chip select wire wp_pin c0 w0).
Proof.
  intros Hin. unfold configured, begin. cbn [fst].
  pose proof (chip_addr_range select) as Ha.
  unfold catalog in Hin. cbn [In] in Hin.
  repeat (destruct Hin as [<- | Hin];
          [constructor; cbn; try exact Ha; try (vm_compute; intuition congruence);
           try (intros _; vm_compute; auto) |]).
  contradiction.
Qed.

(** The address the engines compute on parts with overflow bits: 0x50 plus
    bits 10..8 of the cursor. *)
Lemma overflow_addr_eq c cursor :
  0x50 <= _chip_addr c <= 0x57 ->
  overflow_addr c cursor = 0x50 + (cursor / 256) mod 8.
Proof.
  intros Ha. unfold overflow_addr.
  rewrite land_0xF8 by exact Ha.
  rewrite Z.shiftr_land. change (Z.shiftr 1792 8) with (Z.ones 3).
  rewrite Z.land_ones by lia.
  rewrite Z.shiftr_div_pow2 by lia.
  change (2 ^ 8) with 256. change (2 ^ 3) with 8.
  pose proof (Z.mod_pos_bound (cursor / 256) 8 ltac:(lia)) as B.
  rewrite lor_0x50 by exact B.
  apply u8_small. lia.
Qed.

Lemma device_address_range c cursor :
  0x50 <= _chip_addr c <= 0x57 ->
  0x50 <= device_address c cursor <= 0x57.
Proof.
  intros Ha. unfold device_address.
  destruct (negb (_addr_ov_bits c =? 0)); [|exact Ha].
  rewrite overflow_addr_eq by exact Ha.
  pose proof (Z.mod_pos_bound (cursor / 256) 8 ltac:(lia)). lia.
Qed.

Lemma effective_page_size_range c n :
  geometry c -> 8 <= effective_page_size c n <= 128.
Proof.
  intros G. unfold effective_page_size.
  destruct ((1 <? _addr_bytes c) && (30 <? n)); [lia|].
  pose proof (geo_page c G). rewrite u8_small; lia.
Qed.

Lemma in_range_true c address n :
  0 <= address -> 0 <= n -> address + n < 2 ^ 32 ->
  in_range c address n = true <-> address + n <= _chip_size c.
Proof.
  intros Ha Hn Hs. unfold in_range. rewrite u32_small by lia.
  apply Z.leb_le.
Qed.

(** The whole of [writeN] on a request the guard accepts. *)
Lemma writeN_run fuel c address vals n w :
  geometry c ->
  0 <= address -> 1 <= n <= 255 -> address + n <= _chip_size c ->
  (256 <= fuel)%nat ->
  let p := effective_page_size c n in
  writeN fuel c address vals n w =
  (Some true,
   after w
     (flat_map
        (fun ch => page_events c (address + fst ch) (chunk_data vals ch))
        (chunks (Z.to_nat (ceil_div (n + address mod p) p)) p n
           (address mod p) 0))).
Proof.
  intros G Ha Hn Hs Hfuel p.
  pose proof (effective_page_size_range c n G) as Hp. fold p in Hp.
  pose proof (geo_size c G) as Hsize.
  unfold writeN.
  rewrite (geo_mode c G). cbn [Z.eqb negb andb].
  replace (in_range c address n) with true
    by (symmetry; apply in_range_true; lia).
  fold p.
  rewrite Z.rem_mod_nonneg by lia.
  pose proof (Z.mod_pos_bound address p ltac:(lia)) as Hj.
  rewrite (u8_small (address mod p)) by lia.
  rewrite pages_req_ceil by lia.
  pose proof (ceil_div_bounds (n + address mod p) p ltac:(lia)) as Hc.
  set (t := ceil_div (n + address mod p) p) in *.
  assert (Ht : 1 <= t <= 48) by nia.
  rewrite u8_small by lia.
  rewrite (write_pages_run c address vals n p ltac:(lia) ltac:(lia)
             (Z.to_nat t)); try lia.
  reflexivity.
Qed.

(** ** Paging *)

Lemma payload_length_page c cursor vals ch :
  payload_length c (page_transaction c cursor (chunk_data vals ch)) =
  Z.max 0 (snd ch).
Proof.
  unfold payload_length. rewrite payload_page, chunk_data_length. lia.
Qed.

(** Number and size of the transactions of an accepted write. *)
Lemma writeN_paging fuel c address vals n w :
  geometry c ->
  0 <= address -> 1 <= n <= 255 -> address + n <= _chip_size c ->
  (256 <= fuel)%nat ->
  let p := effective_page_size c n in
  exists evs,
    writeN fuel c address vals n w = (Some true, after w evs) /\
    Z.of_nat (length (transactions evs)) = ceil_div (n + address mod p) p /\
    Forall (fun t => payload_length c t <= p) (transactions evs).
Proof.
  intros G Ha Hn Hs Hfuel p.
  pose proof (effective_page_size_range c n G) as Hp. fold p in Hp.
  pose proof (Z.mod_pos_bound address p ltac:(lia)) as Hj.
  pose proof (ceil_div_bounds (n + address mod p) p ltac:(lia)) as Hc.
  eexists. split; [apply writeN_run; assumption|].
  fold p. rewrite transactions_pages. split.
  - rewrite length_map, chunks_length. rewrite Z2Nat.id; [reflexivity | nia].
  - apply Forall_map.
    eapply Forall_impl; [|apply chunks_at_most_page; lia].
    intros ch Hch. cbv beta in *. rewrite payload_length_page. lia.
Qed.

(** The payloads of an accepted write, in order, are cells 0 .. n-1 of the
    caller's array. *)
Lemma writeN_sends_all fuel c address vals n w :
  geometry c ->
  0 <= address -> 1 <= n <= 255 -> address + n <= _chip_size c ->
  (256 <= fuel)%nat ->
  exists evs,
    writeN fuel c address vals n w = (Some true, after w evs) /\
    concat (map (payload c) (transactions evs))
      = map vals (zseq 0 (Z.to_nat n)).
Proof.
  intros G Ha Hn Hs Hfuel.
  set (p := effective_page_size c n).
  pose proof (effective_page_size_range c n G) as Hp. fold p in Hp.
  pose proof (Z.mod_pos_bound address p ltac:(lia)) as Hj.
  pose proof (ceil_div_bounds (n + address mod p) p ltac:(lia)) as Hc.
  eexists. split; [apply writeN_run; assumption|].
  fold p. rewrite transactions_pages, map_map.
  rewrite (map_ext _ (chunk_data vals)) by (intros ch; apply payload_page).
  rewrite chunks_cover by nia.
  now rewrite Z.sub_0_r.
Qed.

(** Every transaction of an accepted write, with its cursor: the cursor lies
    inside the request, the device address is the one computed from the
    cursor, and the payload has between one byte and a page. *)
Lemma writeN_cursors fuel c address vals n w :
  geometry c ->
  0 <= address -> 1 <= n <= 255 -> address + n <= _chip_size c ->
  (256 <= fuel)%nat ->
  exists evs,
    writeN fuel c address vals n w = (Some true, after w evs) /\
    Forall
      (fun ct =>
         address <= fst ct < address + n /\
         dev_addr (snd ct) = device_address c (fst ct) /\
         0 < payload_length c (snd ct) <= effective_page_size c n /\
         fst ct + payload_length c (snd ct) <= address + n)
      (with_cursors c address (transactions evs)).
Proof.
  intros G Ha Hn Hs Hfuel.
  set (p := effective_page_size c n).
  pose proof (effective_page_size_range c n G) as Hp. fold p in Hp.
  pose proof (Z.mod_pos_bound address p ltac:(lia)) as Hj.
  pose proof (ceil_div_bounds (n + address mod p) p ltac:(lia)) as Hc.
  eexists. split; [apply writeN_run; assumption|].
  fold p. rewrite transactions_pages.
  replace (with_cursors c address) with (with_cursors c (address + 0))
    by (f_equal; lia).
  rewrite with_cursors_pages by lia.
  apply Forall_map.
  set (t := ceil_div (n + address mod p) p) in *.
  assert (Hin : Forall
            (fun ch => (0 <= fst ch < n /\ 0 < snd ch /\ fst ch + snd ch <= n)
                       /\ snd ch <= p)
            (chunks (Z.to_nat t) p n (address mod p) 0)).
  { apply Forall_and.
    - apply chunks_inside; lia.
    - apply chunks_at_most_page. lia. }
  eapply Forall_impl; [|exact Hin].
  intros ch [[H1 [H2 H3]] H4]. cbn [fst snd].
  rewrite payload_length_page. cbn [page_transaction dev_addr].
  repeat split; lia.
Qed.

(** C4: on a controller configured for a catalog chip with two word-address
    bytes, a write of more than 30 bytes is split with an effective page size
    of 16; [write(0, buf, 40)] on the AT24C64 issues three transactions with
    payloads of 16, 16 and 8 bytes. *)
Theorem C4_wide_address_long_write_pages_of_16 :
  (forall chip select wire wp_pin c0 w0 fuel address vals n w,
      In chip catalog ->
      _addr_bytes (configured chip select wire wp_pin c0 w0) = 2 ->
      0 <= address -> 30 < n <= 255 ->
      address + n <= _chip_size (configured chip select wire wp_pin c0 w0) ->
      (256 <= fuel)%nat ->
      let c := configured chip select wire wp_pin c0 w0 in
      effective_page_size c n = 16 /\
      exists evs,
        write_vals fuel c address vals n w = (Some true, after w evs) /\
        Z.of_nat (length (transactions evs))
          = ceil_div (n + address mod 16) 16 /\
        Forall
          (fun ct =>
             0 < payload_length c (snd ct) <= 16 /\
             (fst ct = address \/ fst ct mod 16 = 0))
          (with_cursors c address (transactions evs)))
  /\
  (forall select wp_pin vals,
      let c := configured AT24C64 select steady_wire wp_pin AT24CXX_new idle in
      let r := write_vals 256 c 0 vals 40 idle in
      fst r = Some true /\
      map (payload_length c) (transactions (trace (snd r))) = [16; 16; 8]).
Proof.
  split.
  - intros chip select wire wp_pin c0 w0 fuel address vals n w
      Hin Hb Ha Hn Hs Hfuel c.
    pose proof (configured_geometry chip select wire wp_pin c0 w0 Hin) as G.
    fold c in G, Hb, Hs.
    assert (Hp : effective_page_size c n = 16).
    { unfold effective_page_size. rewrite Hb.
      replace (30 <? n) with true by (symmetry; apply Z.ltb_lt; lia).
      reflexivity. }
    split; [exact Hp|].
    pose proof (Z.mod_pos_bound address 16 ltac:(lia)) as Hj.
    pose proof (ceil_div_bounds (n + address mod 16) 16 ltac:(lia)) as Hc.
    eexists. split; [apply writeN_run; try assumption; lia|].
    rewrite Hp, transactions_pages. split.
    + rewrite length_map, chunks_length. rewrite Z2Nat.id; [reflexivity|lia].
    + replace (with_cursors c address) with (with_cursors c (address + 0))
        by (f_equal; lia).
      rewrite with_cursors_pages by lia.
      apply Forall_map.
      set (t := ceil_div (n + address mod 16) 16) in *.
      assert (Hall : Forall
                (fun ch =>
                   ((0 <= fst ch < n /\ 0 < snd ch /\ fst ch + snd ch <= n)
                    /\ snd ch <= 16)
                   /\ (fst ch = 0 \/ (address + fst ch) mod 16 = 0))
                (chunks (Z.to_nat t) 16 n (address mod 16) 0)).
      { apply Forall_and; [apply Forall_and|].
        - apply chunks_inside; lia.
        - apply chunks_at_most_page. lia.
        - apply chunks_aligned; try lia. now rewrite Z.add_0_r. }
      eapply Forall_impl; [|exact Hall].
      intros ch [[[H1 [H2 H3]] H4] H5]. cbn [fst snd].
      rewrite payload_length_page. split; [lia|].
      destruct H5 as [H5|H5]; [left; lia | right; exact H5].
  - intros select wp_pin vals c r.
    pose proof (configured_geometry AT24C64 select steady_wire wp_pin
                  AT24CXX_new idle ltac:(simpl; auto 10)) as G.
    fold c in G.
    assert (E : r = (Some true,
                after idle
                  (flat_map
                     (fun ch =>
                        page_events c (0 + fst ch) (chunk_data vals ch))
                     [(0, 16); (16, 16); (32, 8)]))).
    { subst r. unfold write_vals.
      rewrite writeN_run; try lia; try exact G.
      - reflexivity.
      - subst c. vm_compute. discriminate. }
    rewrite E. cbn [fst snd after trace idle app].
    split; [reflexivity|].
    rewrite transactions_pages. cbn [map].
    rewrite !payload_length_page. reflexivity.
Qed.

Lemma C4_wide_address_long_write_pages_of_16_witness :
  effective_page_size
    (configured AT24C64 1 steady_wire (-1) AT24CXX_new idle) 40 = 16 /\
  exists evs,
    write_vals 256 (configured AT24C64 1 steady_wire (-1) AT24CXX_new idle)
      0 (fun i => i) 40 idle = (Some true, after idle evs) /\
    Z.of_nat (length (transactions evs)) = 3 /\
    Forall
      (fun ct =>
         0 < payload_length
               (configured AT24C64 1 steady_wire (-1) AT24CXX_new idle)
               (snd ct) <= 16 /\
         (fst ct = 0 \/ fst ct mod 16 = 0))
      (with_cursors (configured AT24C64 1 steady_wire (-1) AT24CXX_new idle)
         0 (transactions evs)).
Proof.
  apply (proj1 C4_wide_address_long_write_pages_of_16
           AT24C64 1 steady_wire (-1) AT24CXX_new idle 256%nat
           0 (fun i => i) 40 idle).
  - simpl. auto 10.
  - reflexivity.
  - lia.
  - lia.
  - vm_compute. discriminate.
  - lia.
Defined.

(** ** Device addresses on parts with overflow bits *)

Lemma spec_device_address_no_select k cursor :
  1 <= k <= 3 -> 0 <= cursor < 256 * 2 ^ k ->
  spec_device_address k 0 cursor = 0x50 + cursor / 256.
Proof.
  intros Hk Hc. unfold spec_device_address.
  replace (0 <? k) with true by (symmetry; apply Z.ltb_lt; lia).
  rewrite Z.land_ones by lia.
  rewrite Z.shiftr_div_pow2 by lia. change (2 ^ 8) with 256.
  assert (Hh : 0 <= cursor / 256 < 2 ^ k).
  { split; [apply Z.div_pos; lia | apply Z.div_lt_upper_bound; lia]. }
  rewrite (Z.mod_small _ _ Hh).
  assert (Hk' : k = 1 \/ k = 2 \/ k = 3) by lia.
  destruct Hk' as [-> | [-> | ->]];
    (rewrite <- lor_0x50 by (change (2 ^ _) with 2 in Hh ||
                              change (2 ^ _) with 4 in Hh ||
                              change (2 ^ _) with 8 in Hh; lia));
    reflexivity.
Qed.

Lemma overflow_bits_of_address k h :
  1 <= k <= 3 -> 0 <= h < 2 ^ k ->
  (0x50 + h) mod 2 ^ k = h /\ (0x50 + h) / 2 ^ k = 0x50 / 2 ^ k.
Proof.
  intros Hk Hh.
  assert (Hk' : k = 1 \/ k = 2 \/ k = 3) by lia.
  destruct Hk' as [-> | [-> | ->]].
  - change (2 ^ 1) with 2 in *.
    replace (0x50 + h) with (h + 40 * 2) by lia.
    rewrite Z.mod_add, Z.div_add by lia.
    rewrite Z.mod_small, Z.div_small by lia. split; reflexivity.
  - change (2 ^ 2) with 4 in *.
    replace (0x50 + h) with (h + 20 * 4) by lia.
    rewrite Z.mod_add, Z.div_add by lia.
    rewrite Z.mod_small, Z.div_small by lia. split; reflexivity.
  - change (2 ^ 3) with 8 in *.
    replace (0x50 + h) with (h + 10 * 8) by lia.
    rewrite Z.mod_add, Z.div_add by lia.
    rewrite Z.mod_small, Z.div_small by lia. split; reflexivity.
Qed.

(** What the engines send on parts with k > 0 overflow bits: bits
    [8 + k - 1 : 8] of the cursor in the low k bits of the device address,
    the bits of 0x50 above them, and nothing of the select value given to
    [begin].  On the AT24C08, a write of 21 bytes at 510 uses 0x51 for the
    transaction at 510 and 0x52 for the transaction at 512. *)
Theorem C2_overflow_bits_replace_select :
  (forall chip select wire wp_pin c0 w0 fuel address vals n w,
      In chip catalog ->
      0 < _addr_ov_bits (configured chip select wire wp_pin c0 w0) ->
      0 <= address -> 1 <= n <= 255 ->
      address + n <= _chip_size (configured chip select wire wp_pin c0 w0) ->
      (256 <= fuel)%nat ->
      let c := configured chip select wire wp_pin c0 w0 in
      let k := _addr_ov_bits c in
      exists evs,
        write_vals fuel c address vals n w = (Some true, after w evs) /\
        Forall
          (fun ct =>
             dev_addr (snd ct) mod 2 ^ k = (fst ct / 256) mod 2 ^ k /\
             dev_addr (snd ct) / 2 ^ k = 0x50 / 2 ^ k /\
             dev_addr (snd ct) = spec_device_address k 0 (fst ct))
          (with_cursors c address (transactions evs)))
  /\
  (forall select wp_pin vals,
      let c := configured AT24C08 select steady_wire wp_pin AT24CXX_new idle in
      let r := write_vals 256 c 510 vals 21 idle in
      fst r = Some true /\
      map (fun ct => (fst ct, dev_addr (snd ct)))
        (with_cursors c 510 (transactions (trace (snd r))))
      = [(510, 0x51); (512, 0x52); (528, 0x52)]).
Proof.
  split.
  - intros chip select wire wp_pin c0 w0 fuel address vals n w
      Hin Hov Ha Hn Hs Hfuel c k.
    pose proof (configured_geometry chip select wire wp_pin c0 w0 Hin) as G.
    fold c in G, Hov, Hs. fold k in Hov.
    pose proof (geo_ov c G) as Hk. fold k in Hk.
    destruct (geo_ov_size c G Hov) as [_ Hsize]. fold k in Hsize.
    destruct (writeN_cursors fuel c address vals n w G Ha Hn Hs Hfuel)
      as [evs [E Hall]].
    exists evs. split; [exact E|].
    eapply Forall_impl; [|exact Hall].
    intros [cursor t] [Hc [Hd _]]. cbn [fst snd] in *.
    assert (Hdev : dev_addr t = 0x50 + cursor / 256).
    { rewrite Hd. unfold device_address. fold k.
      replace (k =? 0) with false by (symmetry; apply Z.eqb_neq; lia).
      cbn [negb]. rewrite overflow_addr_eq by apply (geo_chip_addr c G).
      rewrite Z.mod_small; [reflexivity|].
      split; [apply Z.div_pos; lia|].
      apply Z.div_lt_upper_bound; [lia|].
      assert (2 ^ k <= 2 ^ 3) by (apply Z.pow_le_mono_r; lia). lia. }
    assert (Hh : 0 <= cursor / 256 < 2 ^ k).
    { split; [apply Z.div_pos; lia | apply Z.div_lt_upper_bound; lia]. }
    destruct (overflow_bits_of_address k (cursor / 256) ltac:(lia) Hh)
      as [Hlow Hhigh].
    rewrite Hdev, Hlow, Hhigh, (Z.mod_small _ _ Hh).
    rewrite spec_device_address_no_select by lia.
    repeat split.
  - intros select wp_pin vals c r.
    pose proof (configured_geometry AT24C08 select steady_wire wp_pin
                  AT24CXX_new idle ltac:(simpl; auto 10)) as G.
    fold c in G.
    assert (E : r = (Some true,
                after idle
                  (flat_map
                     (fun ch =>
                        page_events c (510 + fst ch) (chunk_data vals ch))
                     (chunks 3 16 21 14 0)))).
    { subst r. unfold write_vals.
      rewrite writeN_run; try lia; try exact G.
      - reflexivity.
      - subst c. vm_compute. discriminate. }
    rewrite E. cbn [fst snd after trace idle app].
    split; [reflexivity|].
    rewrite transactions_pages.
    change (with_cursors c 510) with (with_cursors c (510 + 0)).
    rewrite (with_cursors_pages c 510 vals 3 16 21 14 0) by lia.
    rewrite map_map. cbn [chunks map fst snd page_transaction dev_addr].
    unfold device_address.
    replace (negb (_addr_ov_bits c =? 0)) with true by reflexivity.
    rewrite !overflow_addr_eq by apply (geo_chip_addr c G).
    reflexivity.
Qed.

Lemma C2_overflow_bits_replace_select_witness :
  exists evs,
    write_vals 256 (configured AT24C08 0 steady_wire (-1) AT24CXX_new idle)
      510 (fun i => i) 21 idle = (Some true, after idle evs) /\
    Forall
      (fun ct =>
         dev_addr (snd ct) mod 2 ^ 2 = (fst ct / 256) mod 2 ^ 2 /\
         dev_addr (snd ct) / 2 ^ 2 = 0x50 / 2 ^ 2 /\
         dev_addr (snd ct) = spec_device_address 2 0 (fst ct))
      (with_cursors (configured AT24C08 0 steady_wire (-1) AT24CXX_new idle)
         510 (transactions evs)).
Proof.
  apply (proj1 C2_overflow_bits_replace_select
           AT24C08 0 steady_wire (-1) AT24CXX_new idle 256%nat
           510 (fun i => i) 21 idle).
  - simpl. auto 10.
  - reflexivity.
  - lia.
  - lia.
  - vm_compute. discriminate.
  - lia.
Defined.

(** C2 fails on the code: [begin] keeps the select bits in [_chip_addr] and
    [isConnected] uses them, but the engines mask [_chip_addr] with 0xF8
    whatever the number of overflow bits is.  With select 4 (pin A2 high) on
    the AT24C08, which has two overflow bits, the address that keeps the
    select bits above the overflow bits is 0x54 at cursor 0, and the driver
    sends 0x50. *)
Lemma C2_counterexample :
  _addr_ov_bits (configured AT24C08 4 steady_wire (-1) AT24CXX_new idle) = 2 /\
  spec_device_address 2 4 0 = 0x54 /\
  ~ Forall
      (fun ct => dev_addr (snd ct) = spec_device_address 2 4 (fst ct))
      (with_cursors (configured AT24C08 4 steady_wire (-1) AT24CXX_new idle) 0
         (transactions
            (trace
               (snd
                  (write_vals 256
                     (configured AT24C08 4 steady_wire (-1) AT24CXX_new idle)
                     0 (fun i => i) 1 idle))))).
Proof.
  split; [reflexivity|]. split; [reflexivity|].
  intros H. vm_compute in H.
  inversion H as [|ct l H1 _]. discriminate H1.
Qed.

(** ** The range check *)

Lemma in_range_false c address n :
  0 <= address -> 0 <= n -> address + n < 2 ^ 32 ->
  in_range c address n = false <-> address + n > _chip_size c.
Proof.
  intros Ha Hn Hs. unfold in_range. rewrite u32_small by lia.
  rewrite Z.leb_gt. lia.
Qed.

Lemma writeN_rejects fuel c address vals n w :
  0 <= address < 65536 -> 0 <= n <= 255 ->
  address + n > _chip_size c ->
  writeN fuel c address vals n w = (Some false, w).
Proof.
  intros Ha Hn Hs. unfold writeN.
  replace (in_range c address n) with false
    by (symmetry; apply in_range_false; lia).
  now rewrite andb_false_r.
Qed.

Lemma readN_rejects fuel c address vals n w :
  0 <= address < 65536 -> 0 <= n <= 255 ->
  address + n > _chip_size c ->
  readN fuel c address vals n w = (Some false, vals, w).
Proof.
  intros Ha Hn Hs. unfold readN.
  replace (in_range c address n) with false
    by (symmetry; apply in_range_false; lia).
  now rewrite andb_false_r.
Qed.

Lemma writeN_accepts fuel c address vals n w :
  _mode c <> 0 -> in_range c address n = true ->
  fst (writeN fuel c address vals n w) <> Some false.
Proof.
  intros Hm Hr. unfold writeN.
  replace (_mode c =? 0) with false by (symmetry; now apply Z.eqb_neq).
  rewrite Hr. cbn [negb andb].
  destruct (write_pages _ _ _ _ _ _ _ _ _ _ _ _) as [[u|] w'];
    cbn [fst]; discriminate.
Qed.

Lemma readN_accepts fuel c address vals n w :
  _mode c <> 0 -> in_range c address n = true ->
  fst (fst (readN fuel c address vals n w)) <> Some false.
Proof.
  intros Hm Hr. unfold readN.
  replace (_mode c =? 0) with false by (symmetry; now apply Z.eqb_neq).
  rewrite Hr. cbn [negb andb Wire.endTransmission].
  destruct (read_cycles _ _ _ _ _ _ _) as [[[u|] vals'] w'];
    cbn [fst]; discriminate.
Qed.

(** C5: on any controller, a multi-byte write with
    [address + n > _chip_size] returns false and makes no call at all. *)
Theorem C5_write_beyond_capacity_rejected :
  forall c fuel address vals n w,
    0 <= address < 65536 -> 0 <= n <= 255 ->
    address + n > _chip_size c ->
    write_vals fuel c address vals n w = (Some false, w) /\
    write_str fuel c address vals n w = (Some false, w) /\
    transactions (issued w (snd (write_vals fuel c address vals n w))) = [] /\
    transactions (issued w (snd (write_str fuel c address vals n w))) = [].
Proof.
  intros c fuel address vals n w Ha Hn Hs.
  unfold write_vals, write_str.
  rewrite writeN_rejects by assumption.
  cbn [snd]. unfold issued. rewrite skipn_all. repeat split.
Qed.

Lemma C5_write_beyond_capacity_rejected_witness :
  write_vals 256 (configured AT24C02 0 steady_wire (-1) AT24CXX_new idle)
    255 (fun i => i) 2 idle = (Some false, idle) /\
  write_str 256 (configured AT24C02 0 steady_wire (-1) AT24CXX_new idle)
    255 (fun i => i) 2 idle = (Some false, idle) /\
  transactions
    (issued idle
       (snd (write_vals 256
               (configured AT24C02 0 steady_wire (-1) AT24CXX_new idle)
               255 (fun i => i) 2 idle))) = [] /\
  transactions
    (issued idle
       (snd (write_str 256
               (configured AT24C02 0 steady_wire (-1) AT24CXX_new idle)
               255 (fun i => i) 2 idle))) = [].
Proof.
  apply (C5_write_beyond_capacity_rejected
           (configured AT24C02 0 steady_wire (-1) AT24CXX_new idle)
           256%nat 255 (fun i => i) 2 idle).
  - lia.
  - lia.
  - vm_compute. reflexivity.
Defined.

(** C10: the guard of both engines compares the exact sum [address + n]
    with [_chip_size]: on an active controller, for a 16-bit address and n
    in 1..255, each engine returns false exactly when the sum exceeds the
    capacity; [write(0xFFFF, buf, 2)] is rejected on every chip of the
    catalog. *)
Theorem C10_range_check_without_wraparound :
  (forall c fuel address vals n w,
      _mode c <> 0 ->
      0 <= address < 65536 -> 1 <= n <= 255 ->
      (in_range c address n = false <-> address + n > _chip_size c) /\
      (fst (writeN fuel c address vals n w) = Some false
       <-> address + n > _chip_size c) /\
      (fst (fst (readN fuel c address vals n w)) = Some false
       <-> address + n > _chip_size c))
  /\
  (forall chip select wire wp_pin c0 w0 fuel vals w,
      In chip catalog ->
      write_vals fuel (configured chip select wire wp_pin c0 w0)
        0xFFFF vals 2 w = (Some false, w)).
Proof.
  split.
  - intros c fuel address vals n w Hm Ha Hn.
    assert (Hr : in_range c address n = false <-> address + n > _chip_size c)
      by (apply in_range_false; lia).
    split; [exact Hr|]. split.
    + split.
      * intros H. apply Hr.
        destruct (in_range c address n) eqn:E; [|reflexivity].
        exfalso. now apply (writeN_accepts fuel c address vals n w Hm E).
      * intros H. rewrite writeN_rejects by lia. reflexivity.
    + split.
      * intros H. apply Hr.
        destruct (in_range c address n) eqn:E; [|reflexivity].
        exfalso. now apply (readN_accepts fuel c address vals n w Hm E).
      * intros H. rewrite readN_rejects by lia. reflexivity.
  - intros chip select wire wp_pin c0 w0 fuel vals w Hin.
    pose proof (configured_geometry chip select wire wp_pin c0 w0 Hin) as G.
    pose proof (geo_size _ G).
    unfold write_vals. apply writeN_rejects; lia.
Qed.

Lemma C10_range_check_without_wraparound_witness :
  (in_range (configured AT24C512 0 steady_wire (-1) AT24CXX_new idle)
     0xFFFF 2 = false
   <-> 0xFFFF + 2
       > _chip_size (configured AT24C512 0 steady_wire (-1) AT24CXX_new idle))
  /\
  (fst (writeN 256 (configured AT24C512 0 steady_wire (-1) AT24CXX_new idle)
          0xFFFF (fun i => i) 2 idle) = Some false
   <-> 0xFFFF + 2
       > _chip_size (configured AT24C512 0 steady_wire (-1) AT24CXX_new idle))
  /\
  (fst (fst (readN 256
               (configured AT24C512 0 steady_wire (-1) AT24CXX_new idle)
               0xFFFF (fun i => i) 2 idle)) = Some false
   <-> 0xFFFF + 2
       > _chip_size (configured AT24C512 0 steady_wire (-1) AT24CXX_new idle)).
Proof.
  apply (proj1 C10_range_check_without_wraparound
           (configured AT24C512 0 steady_wire (-1) AT24CXX_new idle)
           256%nat 0xFFFF (fun i => i) 2 idle).
  - vm_compute. discriminate.
  - lia.
  - lia.
Defined.

(** On a target whose [int] has 16 bits the same guard is computed in
    [unsigned int] and wraps; the driver is not modelled for such a target
    (its catalog constants do not fit a 16-bit [int] either). *)
Remark in_range_needs_wide_int :
  in_range (configured AT24C512 0 steady_wire (-1) AT24CXX_new idle) 0xFFFF 2
    = false /\
  in_range_int16 (configured AT24C512 0 steady_wire (-1) AT24CXX_new idle)
    0xFFFF 2 = true.
Proof. split; reflexivity. Qed.

(** ** The read engine *)

Lemma drain_trace k : forall vals bytes_read w,
  trace (snd (drain k vals bytes_read w)) = trace w.
Proof.
  induction k as [|k IH]; intros vals bytes_read w; [reflexivity|].
  cbn [drain]. unfold Wire.read.
  destruct (rx w) as [|b rest]; rewrite IH; reflexivity.
Qed.

(** Draining a receive buffer of bytes [bs] stores them in successive
    cells. *)
Lemma drain_run bs : forall vals bytes_read w,
  rx w = bs -> 0 <= bytes_read ->
  bytes_read + Z.of_nat (length bs) <= 255 ->
  drain (length bs) vals bytes_read w =
  (store_list vals bytes_read (map u8 bs),
   bytes_read + Z.of_nat (length bs),
   {| trace := trace w; rx := [] |}).
Proof.
  induction bs as [|b bs IH]; intros vals bytes_read w Hrx Hb Hlen.
  - cbn [length drain map store_list]. rewrite Z.add_0_r.
    destruct w as [t r]. cbn in Hrx. now subst r.
  - cbn [length drain map store_list]. unfold Wire.read. rewrite Hrx.
    cbn [length] in Hlen.
    rewrite (u8_small (bytes_read + 1)) by lia.
    rewrite IH; [|reflexivity|lia|cbn [trace rx]; lia].
    cbn [trace]. do 2 f_equal. lia.
Qed.

Lemma store_list_app bs1 : forall vals i bs2,
  store_list vals i (bs1 ++ bs2) =
  store_list (store_list vals i bs1) (i + Z.of_nat (length bs1)) bs2.
Proof.
  induction bs1 as [|b bs1 IH]; intros vals i bs2.
  - cbn. now rewrite Z.add_0_r.
  - cbn [app store_list length]. rewrite IH. f_equal. lia.
Qed.

Lemma store_list_outside bs : forall vals i k,
  k < i \/ i + Z.of_nat (length bs) <= k ->
  store_list vals i bs k = vals k.
Proof.
  induction bs as [|b bs IH]; intros vals i k Hk; [reflexivity|].
  cbn [store_list length] in *. rewrite IH by lia.
  unfold store. replace (k =? i) with false; [reflexivity|].
  symmetry. apply Z.eqb_neq. lia.
Qed.

Lemma store_list_inside bs : forall vals i k,
  i <= k < i + Z.of_nat (length bs) ->
  store_list vals i bs k = nth (Z.to_nat (k - i)) bs 0.
Proof.
  induction bs as [|b bs IH]; intros vals i k Hk.
  - cbn [length] in Hk. lia.
  - cbn [store_list length] in *.
    destruct (Z.eq_dec k i) as [->|Hne].
    + rewrite store_list_outside by lia.
      unfold store. rewrite Z.eqb_refl, Z.sub_diag. reflexivity.
    + rewrite IH by lia.
      replace (Z.to_nat (k - i)) with (S (Z.to_nat (k - (i + 1)))) by lia.
      reflexivity.
Qed.

(** Whatever the bus does and however long the loop runs, it only issues
    [requestFrom] calls, to the one address, for 1 to 32 bytes. *)
Lemma read_cycles_requests fuel c addr n : forall vals bytes_read w,
  exists evs,
    trace (snd (read_cycles fuel c addr n vals bytes_read w))
      = trace w ++ evs /\
    Forall (fun e => exists q, e = RequestFrom addr q /\ 1 <= q <= 32) evs.
Proof.
  induction fuel as [|fuel IH]; intros vals bytes_read w.
  - exists []. cbn. now rewrite app_nil_r.
  - cbn [read_cycles].
    destruct (bytes_read <? n) eqn:Eb.
    + apply Z.ltb_lt in Eb.
      set (q := if I2C_READ_BUFFER_SIZE <? n - bytes_read
                then I2C_READ_BUFFER_SIZE else u8 (n - bytes_read)).
      assert (Hq : 1 <= q <= 32).
      { subst q. unfold I2C_READ_BUFFER_SIZE.
        destruct (32 <? n - bytes_read) eqn:E; [lia|].
        apply Z.ltb_ge in E. rewrite u8_small; lia. }
      set (w1 := Wire.requestFrom _ _ _ _).
      pose proof (drain_trace (Z.to_nat (Wire.available w1)) vals
                    bytes_read w1) as Hd.
      destruct (drain _ vals bytes_read w1) as [[vals' bytes_read'] w2].
      cbn [snd] in Hd.
      destruct (IH vals' bytes_read' w2) as [evs [E Hall]].
      exists (RequestFrom addr q :: evs). split.
      * rewrite E, Hd. subst w1. cbn [Wire.requestFrom trace emit].
        now rewrite <- app_assoc.
      * constructor; [exists q; auto | exact Hall].
    + exists []. cbn. split; [now rewrite app_nil_r | constructor].
Qed.

(** On a responsive bus the loop ends, having asked for the missing
    bytes and stored what the bus delivered. *)
Lemma read_cycles_run fuel c addr n : forall vals bytes_read w,
  responsive (deref (_wire c)) ->
  0 <= bytes_read <= n -> n <= 255 ->
  (Z.to_nat (n - bytes_read) < fuel)%nat ->
  exists evs w',
    read_cycles fuel c addr n vals bytes_read w =
    (Some tt,
     store_list vals bytes_read
       (map u8 (delivered (deref (_wire c)) (trace w) evs)),
     w') /\
    trace w' = trace w ++ evs /\
    Z.of_nat (length (delivered (deref (_wire c)) (trace w) evs))
      = n - bytes_read.
Proof.
  induction fuel as [|fuel IH]; intros vals bytes_read w Hresp Hb Hn Hfuel;
    [lia|].
  cbn [read_cycles].
  destruct (bytes_read <? n) eqn:Eb.
  - apply Z.ltb_lt in Eb.
    set (q := if I2C_READ_BUFFER_SIZE <? n - bytes_read
              then I2C_READ_BUFFER_SIZE else u8 (n - bytes_read)).
    assert (Hq : 1 <= q <= 32 /\ q <= n - bytes_read).
    { subst q. unfold I2C_READ_BUFFER_SIZE.
      destruct (32 <? n - bytes_read) eqn:E.
      - apply Z.ltb_lt in E. lia.
      - apply Z.ltb_ge in E. rewrite u8_small; lia. }
    set (e := RequestFrom addr q).
    set (bs := reply (deref (_wire c)) (trace w ++ [e]) addr q).
    assert (Hlen : length bs = Z.to_nat q) by apply Hresp.
    unfold Wire.requestFrom, Wire.available. cbn [emit trace rx].
    fold e. fold bs. rewrite Nat2Z.id.
    rewrite (drain_run bs) by (cbn [rx]; (reflexivity || lia)).
    cbn [trace].
    destruct (IH (store_list vals bytes_read (map u8 bs))
                (bytes_read + Z.of_nat (length bs))
                {| trace := trace w ++ [e]; rx := [] |} Hresp)
      as [evs [w' [E [Ht Hd]]]]; try lia.
    cbn [trace] in *.
    exists (e :: evs), w'. rewrite E. cbn [delivered].
    change (match e with RequestFrom a q0 => _ | _ => [] end) with bs.
    split; [|split].
    + rewrite map_app, store_list_app, length_map. reflexivity.
    + rewrite Ht, <- app_assoc. reflexivity.
    + rewrite length_app. lia.
  - apply Z.ltb_ge in Eb.
    exists [], w. cbn [delivered map store_list length].
    rewrite app_nil_r. repeat split. lia.
Qed.

Lemma delivered_length tw evs : forall past,
  responsive tw ->
  Forall (fun e => exists a q, e = RequestFrom a q /\ 0 <= q) evs ->
  Z.of_nat (length (delivered tw past evs)) = total (requests evs).
Proof.
  induction evs as [|e evs IH]; intros past Hresp Hall; [reflexivity|].
  inversion Hall as [|? ? [a [q [-> Hq]]] Hrest]; subst.
  cbn [delivered requests total fold_right].
  rewrite length_app, Nat2Z.inj_add, (IH _ Hresp Hrest), Hresp.
  unfold total. lia.
Qed.

(** The whole of [readN] on a request the guard accepts, against a
    responsive bus: one address phase without stop, then requests of at most
    32 bytes that add up to [n], and the bytes delivered end up in cells
    0 .. n-1 of the caller's array. *)
Lemma readN_run fuel c address vals n w :
  _mode c <> 0 -> responsive (deref (_wire c)) ->
  0 <= address < 65536 -> 0 <= n <= 255 -> address + n <= _chip_size c ->
  (Z.to_nat n < fuel)%nat ->
  exists evs vals' w',
    let head :=
      BeginTransmission (device_address c address)
        :: map WriteByte (word_address c address)
        ++ [EndTransmission false] in
    readN fuel c address vals n w = (Some true, vals', w') /\
    trace w' = trace w ++ head ++ evs /\
    Forall
      (fun e =>
         exists q, e = RequestFrom (device_address c address) q /\ 1 <= q <= 32)
      evs /\
    total (requests evs) = n /\
    (forall i, 0 <= i < n ->
       vals' i =
       u8 (nth (Z.to_nat i)
             (delivered (deref (_wire c)) (trace w ++ head) evs) 0)) /\
    (forall i, i < 0 \/ n <= i -> vals' i = vals i).
Proof.
  intros Hm Hresp Ha Hn Hs Hfuel.
  unfold readN.
  replace (_mode c =? 0) with false by (symmetry; now apply Z.eqb_neq).
  replace (in_range c address n) with true
    by (symmetry; apply in_range_true; lia).
  cbn [negb andb Wire.endTransmission].
  rewrite Z.add_0_r. fold (device_address c address).
  set (addr := device_address c address).
  set (w1 := emit (EndTransmission false) _).
  assert (Ht1 : trace w1 =
                trace w ++ BeginTransmission addr
                  :: map WriteByte (word_address c address)
                  ++ [EndTransmission false]).
  { subst w1. unfold word_address, Wire.write, Wire.beginTransmission.
    destruct (1 <? _addr_bytes c); cbn [emit trace map app];
      rewrite <- !app_assoc; reflexivity. }
  destruct (read_cycles_run fuel c addr n vals 0 w1 Hresp
              ltac:(lia) ltac:(lia) ltac:(lia)) as [evs [w' [E [Ht Hd]]]].
  pose proof (read_cycles_requests fuel c addr n vals 0 w1) as [evs' [Ht' Hall]].
  rewrite E in Ht'. cbn [snd] in Ht'. rewrite Ht in Ht'.
  apply app_inv_head in Ht'. subst evs'.
  exists evs, (store_list vals 0 (map u8 (delivered (deref (_wire c))
                                            (trace w1) evs))), w'.
  cbv zeta. rewrite E.
  assert (Hlen : Z.of_nat (length (map u8 (delivered (deref (_wire c))
                                             (trace w1) evs))) = n)
    by (rewrite length_map; lia).
  split; [reflexivity|]. split; [|split; [|split; [|split]]].
  - rewrite Ht, Ht1, <- app_assoc. reflexivity.
  - exact Hall.
  - rewrite <- (delivered_length (deref (_wire c)) evs (trace w1) Hresp).
    + lia.
    + eapply Forall_impl; [|exact Hall].
      intros e [q [-> Hq]]. exists addr, q. split; [reflexivity|lia].
  - intros i Hi. rewrite store_list_inside by lia.
    rewrite Z.sub_0_r, <- Ht1.
    change 0 with (u8 0) at 1. apply map_nth.
  - intros i Hi. apply store_list_outside. lia.
Qed.

Lemma requests_writes l : requests (map WriteByte l) = [].
Proof. induction l as [|b l IH]; [reflexivity | exact IH]. Qed.

(** The [char] overload of [read] asks for all [n] bytes, at most 32 at a
    time, and returns true. *)
Lemma read_str_transfers chip select wire wp_pin c0 w0 fuel address str n w :
  In chip catalog -> responsive wire ->
  0 <= address -> 1 <= n <= 255 ->
  address + n <= _chip_size (configured chip select wire wp_pin c0 w0) ->
  (256 <= fuel)%nat ->
  let c := configured chip select wire wp_pin c0 w0 in
  exists str' w',
    read_str fuel c address str n w = (Some true, str', w') /\
    Forall (fun q => 1 <= q <= 32) (requests (issued w w')) /\
    total (requests (issued w w')) = n /\
    (forall i, i < 0 \/ n <= i -> str' i = str i).
Proof.
  intros Hin Hresp Ha Hn Hs Hfuel c.
  pose proof (configured_geometry chip select wire wp_pin c0 w0 Hin) as G.
  fold c in G, Hs.
  pose proof (geo_size c G) as Hsize.
  destruct (readN_run fuel c address str n w) as [evs [str' [w' H]]];
    try lia.
  { rewrite (geo_mode c G). discriminate. }
  { exact Hresp. }
  cbv zeta in H. destruct H as [E [Ht [Hall [Htot [_ Hout]]]]].
  exists str', w'. split; [exact E|].
  rewrite (issued_app _ _ _ Ht).
  cbn [app requests]. rewrite <- app_assoc, !requests_app, requests_writes.
  cbn [app requests].
  split; [|split; [exact Htot | exact Hout]].
  clear -Hall. induction Hall as [|e l [q [-> Hq]] Hl IH]; cbn [requests].
  - constructor.
  - constructor; [exact Hq | exact IH].
Qed.

(** ** Device addresses on the bus *)

Lemma valid_device_address_range a :
  0x50 <= a <= 0x57 -> valid_device_address a.
Proof.
  intros H. split; [exact H|].
  rewrite Z.shiftr_div_pow2 by lia. change (2 ^ 4) with 16.
  symmetry. apply (Z.div_unique a 16 5 (a - 80)); lia.
Qed.

Lemma write_page_silent fuel : forall page_size n vals j n_sent w,
  exists evs,
    snd (write_page fuel page_size n vals j n_sent w) = after w evs /\
    bus_addresses evs = [].
Proof.
  induction fuel as [|fuel IH]; intros page_size n vals j n_sent w.
  - exists []. cbn. now rewrite after_nil.
  - cbn [write_page].
    destruct ((j <? page_size) && (n_sent <? n)).
    + destruct (IH page_size n vals (u8 (j + 1)) (u8 (n_sent + 1))
                  (Wire.write (vals n_sent) w)) as [evs [E Hb]].
      exists (WriteByte (vals n_sent) :: evs). split; [|exact Hb].
      rewrite E. unfold Wire.write. now rewrite emit_after, after_after.
    + exists []. cbn. now rewrite after_nil.
Qed.

Lemma write_pages_addresses fuel c address vals n page_size pages_req :
  0x50 <= _chip_addr c <= 0x57 ->
  forall i addr j n_sent w,
    0x50 <= addr <= 0x57 ->
    exists evs,
      snd (write_pages fuel c address vals n page_size pages_req
             i addr j n_sent w) = after w evs /\
      Forall valid_device_address (bus_addresses evs).
Proof.
  intros Hc.
  induction fuel as [|fuel IH]; intros i addr j n_sent w Haddr.
  - exists []. cbn. rewrite after_nil. split; [reflexivity | constructor].
  - cbn [write_pages].
    destruct (i <? pages_req);
      [|exists []; cbn; rewrite after_nil; split;
        [reflexivity | constructor]].
    set (addr' := if negb (_addr_ov_bits c =? 0)
                  then overflow_addr c (address + n_sent) else addr).
    assert (Haddr' : 0x50 <= addr' <= 0x57).
    { subst addr'. destruct (negb (_addr_ov_bits c =? 0)); [|exact Haddr].
      rewrite overflow_addr_eq by exact Hc.
      pose proof (Z.mod_pos_bound ((address + n_sent) / 256) 8 ltac:(lia)).
      lia. }
    set (w1 := Wire.write (u8 (address + n_sent)) _).
    assert (E1 : exists evs1,
               w1 = after w (BeginTransmission addr' :: evs1) /\
               bus_addresses evs1 = []).
    { subst w1. unfold Wire.write, Wire.beginTransmission.
      destruct (1 <? _addr_bytes c).
      - exists [WriteByte (u8 (Z.shiftr (address + n_sent) 8));
                WriteByte (u8 (address + n_sent))].
        rewrite !emit_after, !after_after. split; reflexivity.
      - exists [WriteByte (u8 (address + n_sent))].
        rewrite !emit_after, !after_after. split; reflexivity. }
    destruct E1 as [evs1 [E1 Hb1]]. rewrite E1. clear E1 w1.
    destruct (write_page_silent fuel page_size n vals j n_sent
                (after w (BeginTransmission addr' :: evs1)))
      as [evs2 [E2 Hb2]].
    destruct (write_page fuel page_size n vals j n_sent _)
      as [[[j' n_sent']|] w2]; cbn [snd] in E2; subst w2.
    + cbn [Wire.endTransmission].
      destruct (IH (u8 (i + 1)) addr' 0 n_sent'
                  (delay EEPROM_WRITE_CYCLE_TIME_MS
                     (emit (EndTransmission true)
                        (after (after w (BeginTransmission addr' :: evs1))
                           evs2))) Haddr') as [evs3 [E3 Hb3]].
      rewrite E3. unfold delay. rewrite !emit_after, !after_after.
      eexists. split; [reflexivity|].
      cbn [app bus_addresses]. rewrite !bus_addresses_app, Hb1, Hb2.
      cbn [app bus_addresses].
      constructor; [now apply valid_device_address_range | exact Hb3].
    + cbn [snd]. rewrite after_after.
      eexists. split; [reflexivity|].
      cbn [app bus_addresses]. rewrite bus_addresses_app, Hb1, Hb2.
      constructor; [now apply valid_device_address_range | constructor].
Qed.

Lemma writeN_addresses fuel c address vals n w :
  0x50 <= _chip_addr c <= 0x57 ->
  exists evs,
    snd (writeN fuel c address vals n w) = after w evs /\
    Forall valid_device_address (bus_addresses evs).
Proof.
  intros Hc. unfold writeN.
  destruct (negb (_mode c =? 0) && in_range c address n);
    [|exists []; cbn; rewrite after_nil; split; [reflexivity|constructor]].
  destruct (write_pages_addresses fuel c address vals n
              (effective_page_size c n)
              (u8 (Z.quot (n + u8 (Z.rem address (effective_page_size c n)) - 1)
                     (effective_page_size c n) + 1))
              Hc 0 (_chip_addr c)
              (u8 (Z.rem address (effective_page_size c n))) 0 w Hc)
    as [evs [E Hall]].
  exists evs. split; [|exact Hall].
  destruct (write_pages _ _ _ _ _ _ _ _ _ _ _ _) as [[u|] w'];
    cbn [snd] in *; exact E.
Qed.

Lemma readN_addresses fuel c address vals n w :
  0x50 <= _chip_addr c <= 0x57 ->
  exists evs,
    trace (snd (readN fuel c address vals n w)) = trace w ++ evs /\
    Forall valid_device_address (bus_addresses evs).
Proof.
  intros Hc. unfold readN.
  destruct (negb (_mode c =? 0) && in_range c address n);
    [|exists []; cbn; rewrite app_nil_r; split; [reflexivity|constructor]].
  cbn [Wire.endTransmission]. rewrite Z.add_0_r.
  fold (device_address c address).
  set (addr := device_address c address).
  pose proof (device_address_range c address Hc) as Haddr. fold addr in Haddr.
  set (w1 := emit (EndTransmission false) _).
  assert (E1 : exists evs1,
             trace w1 = trace w ++ BeginTransmission addr :: evs1 /\
             bus_addresses evs1 = []).
  { subst w1. unfold Wire.write, Wire.beginTransmission.
    destruct (1 <? _addr_bytes c); cbn [emit trace];
      rewrite <- !app_assoc; eexists; split; reflexivity. }
  destruct E1 as [evs1 [E1 Hb1]].
  destruct (read_cycles_requests fuel c addr n vals 0 w1) as [evs2 [E2 Hall]].
  exists (BeginTransmission addr :: evs1 ++ evs2). split.
  - destruct (read_cycles fuel c addr n vals 0 w1) as [[[u|] vals'] w'];
      cbn [snd] in *; rewrite E2, E1, <- app_assoc; reflexivity.
  - cbn [bus_addresses]. rewrite bus_addresses_app, Hb1. cbn [app].
    constructor; [now apply valid_device_address_range|].
    clear E2. induction Hall as [|e l [q [-> Hq]] Hl IH]; cbn [bus_addresses].
    + constructor.
    + constructor; [now apply valid_device_address_range | exact IH].
Qed.

Lemma perform_addresses fuel c op w :
  0x50 <= _chip_addr c <= 0x57 ->
  Forall valid_device_address (bus_addresses (issued w (perform fuel c op w))).
Proof.
  intros Hc. destruct op; cbn [perform].
  - unfold isConnected.
    destruct (negb (_mode c =? 0)); cbn [snd];
      [|rewrite issued_same; constructor].
    cbn [Wire.endTransmission]. unfold Wire.beginTransmission.
    rewrite !emit_after, after_after.
    destruct (status _ _ =? 0); cbn [snd]; rewrite issued_after;
      (constructor; [now apply valid_device_address_range | constructor]).
  - unfold write_byte.
    destruct (writeN_addresses fuel c address (fun _ => u8 val) 1 w Hc)
      as [evs [E Hall]].
    rewrite E, issued_after. exact Hall.
  - unfold write_vals.
    destruct (writeN_addresses fuel c address vals n w Hc) as [evs [E Hall]].
    rewrite E, issued_after. exact Hall.
  - unfold write_str.
    destruct (writeN_addresses fuel c address str n w Hc) as [evs [E Hall]].
    rewrite E, issued_after. exact Hall.
  - unfold read_byte.
    destruct (readN_addresses fuel c address (fun _ => byte0) 1 w Hc)
      as [evs [E Hall]].
    destruct (readN fuel c address (fun _ => byte0) 1 w) as [[[b|] v] w'];
      cbn [snd] in *; rewrite (issued_app _ _ _ E); exact Hall.
  - unfold read_vals.
    destruct (readN_addresses fuel c address vals 1 w Hc) as [evs [E Hall]].
    rewrite (issued_app _ _ _ E). exact Hall.
  - unfold read_str.
    destruct (readN_addresses fuel c address str n w Hc) as [evs [E Hall]].
    rewrite (issued_app _ _ _ E). exact Hall.
  - unfold setWriteProtect, digitalWrite.
    destruct (wp_pin_set c); rewrite ?emit_after, ?issued_after, ?issued_same;
      constructor.
  - unfold clearWriteProtect, digitalWrite.
    destruct (wp_pin_set c); rewrite ?emit_after, ?issued_after, ?issued_same;
      constructor.
Qed.

(** C9: on a controller configured for a catalog chip with any select value,
    every device address a public method passes to [beginTransmission] or
    [requestFrom] lies in 0x50..0x57 (its bits above the low four are 0x5),
    for writes and reads, with or without overflow bits, however far the call
    gets. *)
Theorem C9_device_addresses_in_0x50_0x57 :
  forall chip select wire wp_pin c0 w0 fuel op w,
    In chip catalog ->
    Forall valid_device_address
      (bus_addresses
         (issued w
            (perform fuel (configured chip select wire wp_pin c0 w0) op w))).
Proof.
  intros chip select wire wp_pin c0 w0 fuel op w Hin.
  apply perform_addresses.
  apply (geo_chip_addr _ (configured_geometry _ _ _ _ _ _ Hin)).
Qed.

Lemma C9_device_addresses_in_0x50_0x57_witness :
  Forall valid_device_address
    (bus_addresses
       (issued idle
          (perform 256 (configured AT24C08 5 steady_wire (-1) AT24CXX_new idle)
             (WriteVals 510 (fun i => i) 21) idle))).
Proof.
  apply (C9_device_addresses_in_0x50_0x57
           AT24C08 5 steady_wire (-1) AT24CXX_new idle 256%nat
           (WriteVals 510 (fun i => i) 21) idle).
  simpl. auto 10.
Defined.

(** ** Before [begin] *)

(** Every method that is guarded by [_mode] does nothing and reports
    failure on a controller that was only constructed. *)
Lemma unconfigured_bus_methods fuel op w :
  op <> SetWriteProtect -> op <> ClearWriteProtect ->
  perform fuel AT24CXX_new op w = w /\
  (verdict fuel AT24CXX_new op w = Some false \/
   exists address byte0, op = ReadOne address byte0).
Proof.
  intros H1 H2. destruct op; try contradiction;
    (split; [reflexivity | (left; reflexivity) || (right; eauto)]).
Qed.

(** The single-byte read hands back the uninitialised local. *)
Lemma unconfigured_read_byte fuel address byte0 w :
  read_byte fuel AT24CXX_new address byte0 w = (Some byte0, w).
Proof. reflexivity. Qed.

(** ** The write-protect pin *)

(** A [uint8_t] never equals -1. *)
Lemma wp_pin_always_set c : 0 <= _wp_pin c <= 255 -> wp_pin_set c = true.
Proof.
  intros H. unfold wp_pin_set.
  replace (_wp_pin c =? -1) with false; [reflexivity|].
  symmetry. apply Z.eqb_neq. lia.
Qed.

Lemma configured_wp_pin chip select wire wp_pin c0 w0 :
  _wp_pin (configured chip select wire wp_pin c0 w0) = u8 wp_pin.
Proof. reflexivity. Qed.

(** With a pin given to [begin], the two methods drive that pin. *)
Lemma write_protect_drives_pin chip select wire pin c0 w0 w :
  0 <= pin <= 255 ->
  let c := configured chip select wire pin c0 w0 in
  setWriteProtect c w = after w [DigitalWrite pin HIGH] /\
  clearWriteProtect c w = after w [DigitalWrite pin LOW].
Proof.
  intros Hp c.
  assert (Hpin : _wp_pin c = pin) by (apply u8_small; lia).
  unfold setWriteProtect, clearWriteProtect.
  rewrite wp_pin_always_set by (rewrite Hpin; lia).
  rewrite Hpin. split; reflexivity.
Qed.

(** C7 fails on the code: on a controller on which [begin] was never called,
    [setWriteProtect] and [clearWriteProtect] call [digitalWrite] on pin 255,
    because the guard [_wp_pin != -1] compares a [uint8_t] with -1. *)
Theorem C7_write_protect_before_begin :
  trace (perform 256 AT24CXX_new SetWriteProtect idle)
    = [DigitalWrite 255 HIGH] /\
  trace (perform 256 AT24CXX_new ClearWriteProtect idle)
    = [DigitalWrite 255 LOW].
Proof. split; reflexivity. Qed.

(** C8 fails on the code: after [begin] without a write-protect pin (the
    default argument -1), [begin] itself configures and drives pin 255, and
    [setWriteProtect] and [clearWriteProtect] drive it too. *)
Theorem C8_write_protect_without_pin :
  forall chip select wire,
    let '(c, w) := begin chip select wire (-1) AT24CXX_new idle in
    trace w = [PinMode 255 OUTPUT; DigitalWrite 255 LOW] /\
    issued w (setWriteProtect c w) = [DigitalWrite 255 HIGH] /\
    issued w (clearWriteProtect c w) = [DigitalWrite 255 LOW].
Proof. intros chip select wire. repeat split. Qed.

(** ** The array overload of [read] *)

(** C3 fails on the code: [read(address, vals, n)] on a [uint8_t] array
    passes 1 to [readN] in place of [n].  On the AT24C02, reading 2 bytes at
    address 0 asks the bus for one byte and leaves [vals[1]] as it was; the
    [char] overload asks for two and fills both cells. *)
Theorem C3_read_vals_reads_one_byte :
  let c := configured AT24C02 0 steady_wire (-1) AT24CXX_new idle in
  let blank : buffer := fun _ => 0 in
  let '(r, vals, w) := read_vals 256 c 0 blank 2 idle in
  let '(r', str, w') := read_str 256 c 0 blank 2 idle in
  (r = Some true /\ requests (trace w) = [1] /\
   vals 0 = 0xA5 /\ vals 1 = 0) /\
  (r' = Some true /\ requests (trace w') = [2] /\
   str 0 = 0xA5 /\ str 1 = 0xA5).
Proof. vm_compute. repeat split. Qed.

(** C6 fails on the code for the same reason: [read(255, vals, 2)] on the
    256-byte AT24C02 is checked as a read of one byte, returns true and
    addresses the chip; the [char] overload rejects the request. *)
Theorem C6_read_vals_past_the_end :
  let c := configured AT24C02 0 steady_wire (-1) AT24CXX_new idle in
  let blank : buffer := fun _ => 0 in
  let '(r, _, w) := read_vals 256 c 255 blank 2 idle in
  let '(r', _, w') := read_str 256 c 255 blank 2 idle in
  (r = Some true /\
   trace w = [BeginTransmission 0x50; WriteByte 255; EndTransmission false;
              RequestFrom 0x50 1]) /\
  (r' = Some false /\ trace w' = []).
Proof. vm_compute. repeat split. Qed.

(** * Further properties of the driver *)

(** ** Chip constants *)

Lemma land_shiftl_disjoint a b k :
  0 <= k -> 0 <= a < 2 ^ k -> Z.land a (Z.shiftl b k) = 0.
Proof.
  intros Hk Ha. apply Z.bits_inj'. intros i Hi.
  rewrite Z.land_spec, Z.bits_0.
  destruct (Z.lt_ge_cases i k) as [Hlt|Hge].
  - rewrite (Z.shiftl_spec_low b k i Hlt). apply andb_false_r.
  - replace (Z.testbit a i) with false; [reflexivity|].
    symmetry. apply Z.testbit_false; [exact Hi|].
    rewrite Z.div_small; [reflexivity|].
    split; [lia|].
    apply Z.lt_le_trans with (2 ^ k); [lia|].
    apply Z.pow_le_mono_r; lia.
Qed.

(** Or-ing a field in above the bits already used adds it. *)
Lemma lor_shiftl_add a b k :
  0 <= k -> 0 <= a < 2 ^ k -> Z.lor a (Z.shiftl b k) = a + b * 2 ^ k.
Proof.
  intros Hk Ha.
  pose proof (land_shiftl_disjoint a b k Hk Ha) as H0.
  rewrite <- Z.lxor_lor by exact H0.
  rewrite <- Z.add_nocarry_lxor by exact H0.
  now rewrite Z.shiftl_mul_pow2.
Qed.

Lemma chip_constant_sum size page bytes ov :
  0 <= size < 2 ^ 17 -> 0 <= page < 2 ^ 8 ->
  0 <= bytes < 4 -> 0 <= ov < 4 ->
  chip_constant size page bytes ov
  = size + page * 2 ^ 20 + bytes * 2 ^ 28 + ov * 2 ^ 30.
Proof.
  intros Hs Hp Hb Ho. unfold chip_constant.
  rewrite (lor_shiftl_add size page 20) by lia.
  rewrite (lor_shiftl_add _ bytes 28) by lia.
  rewrite (lor_shiftl_add _ ov 30) by lia.
  apply u32_small. lia.
Qed.

Lemma field_of_word x mask shift width :
  0 <= shift -> 0 <= width ->
  Z.shiftr mask shift = Z.ones width ->
  Z.shiftr (Z.land x mask) shift = (x / 2 ^ shift) mod 2 ^ width.
Proof.
  intros Hs Hw Hm.
  rewrite Z.shiftr_land, Hm, Z.land_ones by exact Hw.
  now rewrite Z.shiftr_div_pow2 by exact Hs.
Qed.

(** X1: [begin] reads back the four fields a chip constant was packed from
    (word size | page size | addr bytes | addr overflow bits). *)
Theorem begin_unpacks_chip_constant :
  forall size page bytes ov select wire wp_pin c0 w0,
    0 <= size < 2 ^ 17 -> 0 <= page < 2 ^ 8 ->
    0 <= bytes < 4 -> 0 <= ov < 4 ->
    let c := configured (chip_constant size page bytes ov)
               select wire wp_pin c0 w0 in
    _chip_size c = size /\ _page_size c = page /\
    _addr_bytes c = bytes /\ _addr_ov_bits c = ov.
Proof.
  intros size page bytes ov select wire wp_pin c0 w0 Hs Hp Hb Ho c.
  pose proof (chip_constant_sum size page bytes ov Hs Hp Hb Ho) as E.
  subst c. unfold configured, begin.
  cbn [fst _chip_size _page_size _addr_bytes _addr_ov_bits].
  rewrite (u32_small (chip_constant size page bytes ov)) by (rewrite E; lia).
  rewrite E.
  set (x := size + page * 2 ^ 20 + bytes * 2 ^ 28 + ov * 2 ^ 30).
  assert (Hx : x = size + page * 2 ^ 20 + bytes * 2 ^ 28 + ov * 2 ^ 30)
    by reflexivity.
  clearbody x.
  repeat split.
  - change 0x0001FFFF with (Z.ones 17). rewrite Z.land_ones by lia.
    change (2 ^ 17) with 131072 in *. Z.div_mod_to_equations. lia.
  - rewrite (field_of_word x _ 20 8) by (reflexivity || lia).
    change (2 ^ 20) with 1048576 in *. change (2 ^ 8) with 256 in *.
    rewrite u8_small; Z.div_mod_to_equations; lia.
  - rewrite (field_of_word x _ 28 2) by (reflexivity || lia).
    change (2 ^ 28) with 268435456 in *. change (2 ^ 2) with 4 in *.
    rewrite u8_small; Z.div_mod_to_equations; lia.
  - rewrite (field_of_word x _ 30 2) by (reflexivity || lia).
    change (2 ^ 30) with 1073741824 in *. change (2 ^ 2) with 4 in *.
    rewrite u8_small; Z.div_mod_to_equations; lia.
Qed.

Lemma begin_unpacks_chip_constant_witness :
  _chip_size (configured (chip_constant 8192 32 2 0) 1 steady_wire (-1)
                AT24CXX_new idle) = 8192 /\
  _page_size (configured (chip_constant 8192 32 2 0) 1 steady_wire (-1)
                AT24CXX_new idle) = 32 /\
  _addr_bytes (configured (chip_constant 8192 32 2 0) 1 steady_wire (-1)
                 AT24CXX_new idle) = 2 /\
  _addr_ov_bits (configured (chip_constant 8192 32 2 0) 1 steady_wire (-1)
                   AT24CXX_new idle) = 0.
Proof.
  apply (begin_unpacks_chip_constant 8192 32 2 0 1 steady_wire (-1)
           AT24CXX_new idle); lia.
Defined.

(** ** More on accepted writes *)

Lemma delays_pages c address vals l :
  delays
    (flat_map (fun ch => page_events c (address + fst ch) (chunk_data vals ch))
       l) = repeat EEPROM_WRITE_CYCLE_TIME_MS (length l).
Proof.
  induction l as [|ch l IH]; [reflexivity|].
  cbn [flat_map length repeat]. unfold page_events at 1.
  cbn [app delays].
  generalize (word_address c (address + fst ch) ++ chunk_data vals ch).
  intros bs. induction bs as [|b bs IHb]; cbn [map app delays].
  - now rewrite IH.
  - exact IHb.
Qed.

Lemma requests_pages c address vals l :
  requests
    (flat_map (fun ch => page_events c (address + fst ch) (chunk_data vals ch))
       l) = [].
Proof.
  induction l as [|ch l IH]; [reflexivity|].
  cbn [flat_map]. unfold page_events at 1. cbn [app requests].
  rewrite <- app_assoc, !requests_app, requests_writes, IH. reflexivity.
Qed.

Lemma pin_calls_pages c address vals l :
  pin_calls
    (flat_map (fun ch => page_events c (address + fst ch) (chunk_data vals ch))
       l) = [].
Proof.
  induction l as [|ch l IH]; [reflexivity|].
  cbn [flat_map]. unfold page_events at 1. cbn [app pin_calls].
  generalize (word_address c (address + fst ch) ++ chunk_data vals ch).
  intros bs. induction bs as [|b bs IHb]; cbn [map app pin_calls].
  - exact IH.
  - exact IHb.
Qed.

(** A pass never runs over the end of the page its cursor is in. *)
Lemma chunks_within_page count : forall page_size n address j n_sent,
  0 < page_size -> 0 <= j < page_size -> 0 <= n_sent ->
  (address + n_sent) mod page_size = j ->
  (Z.of_nat count - 1) * page_size < n - n_sent + j ->
  Forall (fun ch => (address + fst ch) mod page_size + snd ch <= page_size)
    (chunks count page_size n j n_sent).
Proof.
  induction count as [|count IH];
    intros page_size n address j n_sent Hp Hj Hs Hm Hc.
  - constructor.
  - cbn [chunks]. constructor; [cbn [fst snd]; lia|].
    destruct count as [|count]; [constructor|].
    assert (Hlen : Z.min (page_size - j) (n - n_sent) = page_size - j) by nia.
    rewrite Hlen.
    apply IH; try nia.
    replace (address + (n_sent + (page_size - j)))
      with ((address + n_sent - j) + 1 * page_size) by lia.
    rewrite Z.mod_add by lia.
    rewrite <- Hm, Zminus_mod_idemp_r, Z.sub_diag.
    apply Z.mod_0_l. lia.
Qed.

(** On the catalog, one word-address byte goes with a capacity the byte and
    the overflow bits can reach, two bytes with no overflow bits. *)
Lemma catalog_reach chip select wire wp_pin c0 w0 :
  In chip catalog ->
  let c := configured chip select wire wp_pin c0 w0 in
  (_addr_bytes c = 1 /\ _chip_size c <= 256 * 2 ^ _addr_ov_bits c) \/
  (_addr_bytes c = 2 /\ _addr_ov_bits c = 0).
Proof.
  intros Hin c. subst c. unfold configured, begin. cbn [fst].
  unfold catalog in Hin. cbn [In] in Hin.
  repeat (destruct Hin as [<- | Hin];
          [cbn [_addr_bytes _chip_size _addr_ov_bits];
           first [left; split; [reflexivity | vm_compute; discriminate]
                 | right; split; reflexivity] |]).
  contradiction.
Qed.

Lemma device_address_overflow c cursor :
  geometry c -> 0 < _addr_ov_bits c -> 0 <= cursor < _chip_size c ->
  device_address c cursor = 0x50 + cursor / 256.
Proof.
  intros G Hov Hc.
  pose proof (geo_ov c G) as Hk.
  destruct (geo_ov_size c G Hov) as [_ Hsize].
  unfold device_address.
  replace (_addr_ov_bits c =? 0) with false by (symmetry; apply Z.eqb_neq; lia).
  cbn [negb]. rewrite overflow_addr_eq by apply (geo_chip_addr c G).
  rewrite Z.mod_small; [reflexivity|].
  split; [apply Z.div_pos; lia|].
  apply Z.div_lt_upper_bound; [lia|].
  assert (2 ^ _addr_ov_bits c <= 2 ^ 3) by (apply Z.pow_le_mono_r; lia).
  lia.
Qed.

(** What the device address and the word-address bytes computed for a
    cursor select on the chip is that cursor. *)
Lemma selected_address_page chip select wire wp_pin c0 w0 cursor data :
  In chip catalog ->
  let c := configured chip select wire wp_pin c0 w0 in
  0 <= cursor < _chip_size c ->
  selected_address c (page_transaction c cursor data) = cursor.
Proof.
  intros Hin c Hc.
  pose proof (configured_geometry chip select wire wp_pin c0 w0 Hin) as G.
  pose proof (catalog_reach chip select wire wp_pin c0 w0 Hin) as R.
  fold c in G, R. cbv zeta in R.
  pose proof (geo_size c G) as Hsize.
  pose proof (geo_ov c G) as Hk.
  unfold selected_address, page_transaction, word_address.
  cbn [sent dev_addr].
  destruct R as [[Hb Hreach] | [Hb Hov]]; rewrite Hb.
  - change (1 <? 1) with false. cbn [app nth].
    unfold u8. change (2 ^ 8) with 256.
    destruct (_addr_ov_bits c =? 0) eqn:Eo.
    + apply Z.eqb_eq in Eo. rewrite Eo in Hreach.
      change (256 * 2 ^ 0) with 256 in Hreach.
      rewrite Z.mod_small by lia. lia.
    + apply Z.eqb_neq in Eo.
      rewrite device_address_overflow by (assumption || lia).
      unfold AT24CXX_ADDR.
      pose proof (Z.div_mod cursor 256 ltac:(lia)). lia.
  - change (1 <? 2) with true. cbn [app nth].
    rewrite Z.shiftr_div_pow2 by lia.
    unfold u8. change (2 ^ 8) with 256.
    rewrite (Z.mod_small (cursor / 256)).
    + pose proof (Z.div_mod cursor 256 ltac:(lia)). lia.
    + split; [apply Z.div_pos; lia | apply Z.div_lt_upper_bound; lia].
Qed.

(** X2: the payloads of an accepted write, taken in the order of the
    transactions, are cells 0 .. n-1 of the caller's array: every byte is
    sent, once, in order. *)
Theorem write_sends_every_byte_in_order :
  forall chip select wire wp_pin c0 w0 fuel address vals n w,
    In chip catalog ->
    0 <= address -> 1 <= n <= 255 ->
    address + n <= _chip_size (configured chip select wire wp_pin c0 w0) ->
    (256 <= fuel)%nat ->
    let c := configured chip select wire wp_pin c0 w0 in
    exists evs,
      write_vals fuel c address vals n w = (Some true, after w evs) /\
      concat (map (payload c) (transactions evs))
        = map vals (zseq 0 (Z.to_nat n)).
Proof.
  intros chip select wire wp_pin c0 w0 fuel address vals n w
    Hin Ha Hn Hs Hfuel c.
  apply writeN_sends_all; auto.
  apply configured_geometry; assumption.
Qed.

Lemma write_sends_every_byte_in_order_witness :
  exists evs,
    write_vals 256 (configured AT24C64 1 steady_wire (-1) AT24CXX_new idle)
      62 (fun i => i) 26 idle = (Some true, after idle evs) /\
    concat
      (map (payload (configured AT24C64 1 steady_wire (-1) AT24CXX_new idle))
         (transactions evs))
      = map (fun i => i) (zseq 0 (Z.to_nat 26)).
Proof.
  apply (write_sends_every_byte_in_order
           AT24C64 1 steady_wire (-1) AT24CXX_new idle 256%nat
           62 (fun i => i) 26 idle).
  - simpl. auto 10.
  - lia.
  - lia.
  - vm_compute. discriminate.
  - lia.
Defined.

(** ** The catalog's own numbers *)

Lemma descriptor_fields size page bytes ov select wire wp_pin c0 w0 :
  In (size, page, bytes, ov) descriptors ->
  let c := configured (chip_constant size page bytes ov)
             select wire wp_pin c0 w0 in
  In (chip_constant size page bytes ov) catalog /\
  _chip_size c = size /\ _page_size c = page /\
  _addr_bytes c = bytes /\ _addr_ov_bits c = ov /\
  (bytes = 1 \/ bytes = 2) /\ 8 <= page <= 128 /\
  (bytes = 2 -> exists m, 0 < m /\ page = 16 * m).
Proof.
  intros Hin c. subst c. unfold descriptors in Hin. cbn [In] in Hin.
  repeat (destruct Hin as [E | Hin];
          [injection E as <- <- <- <-;
           split; [cbn [catalog In]; auto 12|];
           repeat (split; [reflexivity || lia|]);
           first [ intros H; discriminate H
                 | intros _; exists 2; split; [lia | reflexivity]
                 | intros _; exists 4; split; [lia | reflexivity]
                 | intros _; exists 8; split; [lia | reflexivity] ] |]).
  contradiction.
Qed.

(** The page size the engine splits by is the one the specification names,
    computed from the catalog's page size and address bytes. *)
Lemma effective_page_size_descriptor
    size page bytes ov select wire wp_pin c0 w0 n :
  In (size, page, bytes, ov) descriptors ->
  effective_page_size
    (configured (chip_constant size page bytes ov) select wire wp_pin c0 w0) n
  = spec_page_size page bytes n.
Proof.
  intros Hin.
  destruct (descriptor_fields size page bytes ov select wire wp_pin c0 w0 Hin)
    as [_ [_ [Hp [Hb [_ [Hbytes [Hpage _]]]]]]].
  unfold effective_page_size, spec_page_size. rewrite Hp, Hb.
  rewrite u8_small by lia.
  destruct Hbytes as [-> | ->]; reflexivity.
Qed.

Lemma spec_page_size_divides size page bytes ov n :
  In (size, page, bytes, ov) descriptors ->
  exists m, 0 < m /\ page = spec_page_size page bytes n * m.
Proof.
  intros Hin.
  destruct (descriptor_fields size page bytes ov 0 null_wire 0 AT24CXX_new idle
              Hin) as [_ [_ [_ [_ [_ [_ [_ Hdiv]]]]]]].
  unfold spec_page_size.
  destruct ((bytes =? 2) && (30 <? n)) eqn:E.
  - apply andb_true_iff in E. destruct E as [E _].
    apply Z.eqb_eq in E. exact (Hdiv E).
  - exists 1. split; lia.
Qed.

(** A piece that fits the rest of a small page fits the rest of any page
    made of whole small pages. *)
Lemma within_chip_page p page cursor len :
  0 < p -> (exists m, 0 < m /\ page = p * m) ->
  cursor mod p + len <= p -> cursor mod page + len <= page.
Proof.
  intros Hp [m [Hm ->]] H.
  rewrite Z.rem_mul_r by lia.
  pose proof (Z.mod_pos_bound (cursor / p) m Hm). nia.
Qed.

(** X3: no transaction of an accepted write runs over a page boundary.  With
    the cursor read off the bytes on the bus, and P the page size of the
    catalog entry, or 16 on parts with two address bytes when n > 30: a
    transaction that starts [o] bytes into a page of P bytes carries at most
    P - o bytes, and so it also ends inside the page of the chip it starts
    in. *)
Theorem write_transactions_stay_in_page :
  forall size page bytes ov select wire wp_pin c0 w0 fuel address vals n w,
    In (size, page, bytes, ov) descriptors ->
    0 <= address -> 1 <= n <= 255 -> address + n <= size ->
    (256 <= fuel)%nat ->
    let c := configured (chip_constant size page bytes ov)
               select wire wp_pin c0 w0 in
    let p := spec_page_size page bytes n in
    exists evs,
      write_vals fuel c address vals n w = (Some true, after w evs) /\
      Forall
        (fun ct =>
           selected_address c (snd ct) = fst ct /\
           fst ct mod p + payload_length c (snd ct) <= p /\
           fst ct mod page + payload_length c (snd ct) <= page)
        (with_cursors c address (transactions evs)) /\
      Forall
        (fun t =>
           selected_address c t mod p + payload_length c t <= p /\
           selected_address c t mod page + payload_length c t <= page)
        (transactions evs).
Proof.
  intros size page bytes ov select wire wp_pin c0 w0 fuel address vals n w
    Hd Ha Hn Hs Hfuel c p.
  destruct (descriptor_fields size page bytes ov select wire wp_pin c0 w0 Hd)
    as [Hin [Hsize _]].
  fold c in Hsize.
  pose proof (configured_geometry _ select wire wp_pin c0 w0 Hin) as G.
  fold c in G.
  pose proof (effective_page_size_descriptor size page bytes ov select wire
                wp_pin c0 w0 n Hd) as Hp.
  fold c in Hp. fold p in Hp.
  pose proof (effective_page_size_range c n G) as Hr. rewrite Hp in Hr.
  pose proof (spec_page_size_divides size page bytes ov n Hd) as Hdiv.
  fold p in Hdiv.
  pose proof (Z.mod_pos_bound address p ltac:(lia)) as Hj.
  pose proof (ceil_div_bounds (n + address mod p) p ltac:(lia)) as Hc.
  eexists. split; [apply writeN_run; (assumption || lia)|].
  rewrite Hp, transactions_pages.
  set (l := chunks (Z.to_nat (ceil_div (n + address mod p) p)) p n
              (address mod p) 0).
  assert (Hall : Forall
            (fun ch => (address + fst ch) mod p + snd ch <= p /\
                       (0 <= fst ch < n /\ 0 < snd ch /\ fst ch + snd ch <= n))
            l).
  { apply Forall_and.
    - apply chunks_within_page; try lia. now rewrite Z.add_0_r.
    - apply chunks_inside; lia. }
  assert (Hsel : forall ch,
             0 <= fst ch < n ->
             selected_address c
               (page_transaction c (address + fst ch) (chunk_data vals ch))
             = address + fst ch).
  { intros ch Hch.
    apply (selected_address_page _ select wire wp_pin c0 w0 _ _ Hin).
    fold c. lia. }
  split.
  - replace (with_cursors c address) with (with_cursors c (address + 0))
      by (f_equal; lia).
    unfold l. rewrite with_cursors_pages by lia. fold l.
    apply Forall_map.
    eapply Forall_impl; [|exact Hall].
    intros ch [H1 [H2 [H3 H4]]]. cbn [fst snd].
    rewrite payload_length_page, Hsel by exact H2.
    repeat split; try lia.
    apply (within_chip_page p); [lia | exact Hdiv | lia].
  - apply Forall_map.
    eapply Forall_impl; [|exact Hall].
    intros ch [H1 [H2 [H3 H4]]].
    rewrite payload_length_page, Hsel by exact H2.
    split; [lia|].
    apply (within_chip_page p); [lia | exact Hdiv | lia].
Qed.

Lemma write_transactions_stay_in_page_witness :
  exists evs,
    write_vals 256
      (configured (chip_constant 16384 64 2 0) 2 steady_wire (-1)
         AT24CXX_new idle)
      50 (fun i => i) 40 idle = (Some true, after idle evs) /\
    Forall
      (fun ct =>
         selected_address
           (configured (chip_constant 16384 64 2 0) 2 steady_wire (-1)
              AT24CXX_new idle) (snd ct) = fst ct /\
         fst ct mod spec_page_size 64 2 40
         + payload_length
             (configured (chip_constant 16384 64 2 0) 2 steady_wire (-1)
                AT24CXX_new idle) (snd ct)
         <= spec_page_size 64 2 40 /\
         fst ct mod 64
         + payload_length
             (configured (chip_constant 16384 64 2 0) 2 steady_wire (-1)
                AT24CXX_new idle) (snd ct)
         <= 64)
      (with_cursors
         (configured (chip_constant 16384 64 2 0) 2 steady_wire (-1)
            AT24CXX_new idle)
         50 (transactions evs)) /\
    Forall
      (fun t =>
         selected_address
           (configured (chip_constant 16384 64 2 0) 2 steady_wire (-1)
              AT24CXX_new idle) t mod spec_page_size 64 2 40
         + payload_length
             (configured (chip_constant 16384 64 2 0) 2 steady_wire (-1)
                AT24CXX_new idle) t
         <= spec_page_size 64 2 40 /\
         selected_address
           (configured (chip_constant 16384 64 2 0) 2 steady_wire (-1)
              AT24CXX_new idle) t mod 64
         + payload_length
             (configured (chip_constant 16384 64 2 0) 2 steady_wire (-1)
                AT24CXX_new idle) t
         <= 64)
      (transactions evs).
Proof.
  apply (write_transactions_stay_in_page
           16384 64 2 0 2 steady_wire (-1) AT24CXX_new idle 256%nat
           50 (fun i => i) 40 idle).
  - simpl. auto 12.
  - lia.
  - lia.
  - lia.
  - lia.
Defined.

(** X4: in every transaction of an accepted write the bytes queued are the
    word address of the cursor followed by the payload, and device address
    and word address together select exactly the cursor on the chip. *)
Theorem write_transactions_select_cursor :
  forall chip select wire wp_pin c0 w0 fuel address vals n w,
    In chip catalog ->
    0 <= address -> 1 <= n <= 255 ->
    address + n <= _chip_size (configured chip select wire wp_pin c0 w0) ->
    (256 <= fuel)%nat ->
    let c := configured chip select wire wp_pin c0 w0 in
    exists evs,
      write_vals fuel c address vals n w = (Some true, after w evs) /\
      Forall
        (fun ct =>
           sent (snd ct) = word_address c (fst ct) ++ payload c (snd ct) /\
           selected_address c (snd ct) = fst ct)
        (with_cursors c address (transactions evs)).
Proof.
  intros chip select wire wp_pin c0 w0 fuel address vals n w
    Hin Ha Hn Hs Hfuel c.
  pose proof (configured_geometry chip select wire wp_pin c0 w0 Hin) as G.
  fold c in G, Hs.
  set (p := effective_page_size c n).
  pose proof (effective_page_size_range c n G) as Hp. fold p in Hp.
  pose proof (Z.mod_pos_bound address p ltac:(lia)) as Hj.
  pose proof (ceil_div_bounds (n + address mod p) p ltac:(lia)) as Hc.
  eexists. split; [apply writeN_run; assumption|].
  fold p. rewrite transactions_pages.
  replace (with_cursors c address) with (with_cursors c (address + 0))
    by (f_equal; lia).
  rewrite with_cursors_pages by lia.
  apply Forall_map.
  eapply Forall_impl; [|apply (chunks_inside
                                 (Z.to_nat (ceil_div (n + address mod p) p))
                                 p n (address mod p) 0); lia].
  intros ch [H1 [H2 H3]]. cbn [fst snd]. split.
  - now rewrite payload_page.
  - apply selected_address_page; [exact Hin|]. fold c. lia.
Qed.

Lemma write_transactions_select_cursor_witness :
  exists evs,
    write_vals 256 (configured AT24C16 0 steady_wire (-1) AT24CXX_new idle)
      1270 (fun i => i) 40 idle = (Some true, after idle evs) /\
    Forall
      (fun ct =>
         sent (snd ct)
         = word_address
             (configured AT24C16 0 steady_wire (-1) AT24CXX_new idle) (fst ct)
           ++ payload
                (configured AT24C16 0 steady_wire (-1) AT24CXX_new idle)
                (snd ct) /\
         selected_address
           (configured AT24C16 0 steady_wire (-1) AT24CXX_new idle) (snd ct)
         = fst ct)
      (with_cursors (configured AT24C16 0 steady_wire (-1) AT24CXX_new idle)
         1270 (transactions evs)).
Proof.
  apply (write_transactions_select_cursor
           AT24C16 0 steady_wire (-1) AT24CXX_new idle 256%nat
           1270 (fun i => i) 40 idle).
  - simpl. auto 10.
  - lia.
  - lia.
  - vm_compute. discriminate.
  - lia.
Defined.

Lemma waits_after_stop_writes bs rest :
  waits_after_stop (map WriteByte bs ++ rest) = waits_after_stop rest.
Proof. induction bs as [|b bs IH]; [reflexivity | exact IH]. Qed.

Lemma waits_after_stop_pages c address vals l :
  waits_after_stop
    (flat_map (fun ch => page_events c (address + fst ch) (chunk_data vals ch))
       l) = true.
Proof.
  induction l as [|ch l IH]; [reflexivity|].
  cbn [flat_map]. unfold page_events at 1.
  cbn [app waits_after_stop].
  rewrite <- app_assoc, waits_after_stop_writes.
  cbn [app waits_after_stop andb]. rewrite Z.eqb_refl. exact IH.
Qed.

(** X5: in an accepted write every [endTransmission] asks for a stop and is
    directly followed by [delay(5)], the last one included, and [delay] is
    called nowhere else; so there are as many waits as transactions.  The
    write never asks the bus for data and never touches a pin. *)
Theorem write_stops_and_waits :
  forall chip select wire wp_pin c0 w0 fuel address vals n w,
    In chip catalog ->
    0 <= address -> 1 <= n <= 255 ->
    address + n <= _chip_size (configured chip select wire wp_pin c0 w0) ->
    (256 <= fuel)%nat ->
    let c := configured chip select wire wp_pin c0 w0 in
    exists evs,
      write_vals fuel c address vals n w = (Some true, after w evs) /\
      waits_after_stop evs = true /\
      Forall (fun t => stop t = true) (transactions evs) /\
      delays evs = repeat 5 (length (transactions evs)) /\
      requests evs = [] /\ pin_calls evs = [].
Proof.
  intros chip select wire wp_pin c0 w0 fuel address vals n w
    Hin Ha Hn Hs Hfuel c.
  pose proof (configured_geometry chip select wire wp_pin c0 w0 Hin) as G.
  fold c in G, Hs.
  eexists. split; [apply writeN_run; assumption|].
  rewrite transactions_pages, delays_pages, requests_pages, pin_calls_pages.
  rewrite waits_after_stop_pages, length_map.
  split; [reflexivity|]. split; [|repeat split].
  apply Forall_map, Forall_forall. intros ch _. reflexivity.
Qed.

Lemma write_stops_and_waits_witness :
  exists evs,
    write_vals 256 (configured AT24C02 0 steady_wire (-1) AT24CXX_new idle)
      3 (fun i => i) 26 idle = (Some true, after idle evs) /\
    waits_after_stop evs = true /\
    Forall (fun t => stop t = true) (transactions evs) /\
    delays evs = repeat 5 (length (transactions evs)) /\
    requests evs = [] /\ pin_calls evs = [].
Proof.
  apply (write_stops_and_waits
           AT24C02 0 steady_wire (-1) AT24CXX_new idle 256%nat
           3 (fun i => i) 26 idle).
  - simpl. auto 10.
  - lia.
  - lia.
  - vm_compute. discriminate.
  - lia.
Defined.

(** ** Short writes *)

(** X6: a write of zero bytes, at any address up to and including the
    capacity, is accepted: it returns true after one transaction that
    carries the word address and no data, and the write-cycle wait. *)
Theorem write_of_no_bytes :
  forall chip select wire wp_pin c0 w0 fuel address vals w,
    In chip catalog ->
    0 <= address <= _chip_size (configured chip select wire wp_pin c0 w0) ->
    (256 <= fuel)%nat ->
    let c := configured chip select wire wp_pin c0 w0 in
    write_vals fuel c address vals 0 w
    = (Some true, after w (page_events c address [])).
Proof.
  intros chip select wire wp_pin c0 w0 fuel address vals w Hin Ha Hfuel c.
  pose proof (configured_geometry chip select wire wp_pin c0 w0 Hin) as G.
  fold c in G, Ha.
  pose proof (geo_size c G) as Hsize.
  set (p := effective_page_size c 0).
  pose proof (effective_page_size_range c 0 G) as Hp. fold p in Hp.
  pose proof (Z.mod_pos_bound address p ltac:(lia)) as Hj.
  unfold write_vals, writeN.
  rewrite (geo_mode c G). cbn [Z.eqb negb andb].
  replace (in_range c address 0) with true
    by (symmetry; apply in_range_true; lia).
  fold p.
  rewrite Z.rem_mod_nonneg by lia.
  rewrite (u8_small (address mod p)) by lia.
  assert (Hq : Z.quot (0 + address mod p - 1) p = 0).
  { destruct (Z.eq_dec (address mod p) 0) as [E|E].
    - rewrite E. change (0 + 0 - 1) with (- (1)).
      rewrite Z.quot_opp_l by lia. rewrite Z.quot_small by lia. reflexivity.
    - apply Z.quot_small. lia. }
  rewrite Hq. change (u8 (0 + 1)) with 1.
  rewrite (write_pages_run c address vals 0 p ltac:(lia) ltac:(lia) 1%nat);
    try lia.
  cbn [chunks flat_map]. rewrite Z.min_r by lia.
  unfold chunk_data. cbn [fst snd Z.to_nat zseq map].
  now rewrite app_nil_r, Z.add_0_r.
Qed.

Lemma write_of_no_bytes_witness :
  write_vals 256 (configured AT24C02 0 steady_wire (-1) AT24CXX_new idle)
    256 (fun i => i) 0 idle
  = (Some true,
     after idle
       (page_events (configured AT24C02 0 steady_wire (-1) AT24CXX_new idle)
          256 [])).
Proof.
  apply (write_of_no_bytes AT24C02 0 steady_wire (-1) AT24CXX_new idle
           256%nat 256 (fun i => i) idle).
  - simpl. auto 10.
  - split; [lia | vm_compute; discriminate].
  - lia.
Defined.

(** X7: writing one byte inside the chip is one transaction: the device
    address of that address, its word address, the byte, stop and the
    write-cycle wait. *)
Theorem write_of_one_byte :
  forall chip select wire wp_pin c0 w0 fuel address val w,
    In chip catalog ->
    0 <= address < _chip_size (configured chip select wire wp_pin c0 w0) ->
    (256 <= fuel)%nat ->
    let c := configured chip select wire wp_pin c0 w0 in
    write_byte fuel c address val w
    = (Some true, after w (page_events c address [u8 val])).
Proof.
  intros chip select wire wp_pin c0 w0 fuel address val w Hin Ha Hfuel c.
  pose proof (configured_geometry chip select wire wp_pin c0 w0 Hin) as G.
  fold c in G, Ha.
  set (p := effective_page_size c 1).
  pose proof (effective_page_size_range c 1 G) as Hp. fold p in Hp.
  pose proof (Z.mod_pos_bound address p ltac:(lia)) as Hj.
  unfold write_byte.
  rewrite writeN_run by (assumption || lia).
  fold p.
  rewrite (ceil_div_unique (1 + address mod p) p 1) by lia.
  change (Z.to_nat 1) with 1%nat. cbn [chunks flat_map].
  rewrite Z.min_r by lia.
  unfold chunk_data. cbn [fst snd]. change (Z.to_nat (1 - 0)) with 1%nat.
  cbn [zseq map]. now rewrite app_nil_r, Z.add_0_r.
Qed.

Lemma write_of_one_byte_witness :
  write_byte 256 (configured AT24C08 0 steady_wire (-1) AT24CXX_new idle)
    700 0x1A5 idle
  = (Some true,
     after idle
       (page_events (configured AT24C08 0 steady_wire (-1) AT24CXX_new idle)
          700 [u8 0x1A5])).
Proof.
  apply (write_of_one_byte AT24C08 0 steady_wire (-1) AT24CXX_new idle
           256%nat 700 0x1A5 idle).
  - simpl. auto 10.
  - split; [lia | vm_compute; reflexivity].
  - lia.
Defined.

(** ** The presence check *)

Lemma chip_addr_of_select chip select wire wp_pin c0 w0 :
  _chip_addr (configured chip select wire wp_pin c0 w0) = 0x50 + select mod 8.
Proof.
  unfold configured, begin. cbn [fst _chip_addr].
  pose proof (land_7_range (u8 select)) as H.
  unfold AT24CXX_ADDR. rewrite lor_0x50 by exact H.
  rewrite u8_small by lia. f_equal.
  change 7 with (Z.ones 3). rewrite Z.land_ones by lia.
  unfold u8. change (2 ^ 8) with 256. change (2 ^ 3) with 8.
  Z.div_mod_to_equations. lia.
Qed.

(** X8: after [begin], for any chip constant, [isConnected] makes one empty
    transaction with stop to 0x50 + (select mod 8), the select bits being
    used as given also on parts with overflow bits, and returns true exactly
    when [endTransmission] reports 0. *)
Theorem isConnected_probes_select_address :
  forall chip select wire wp_pin c0 w0 w,
    let c := configured chip select wire wp_pin c0 w0 in
    let probe := [BeginTransmission (0x50 + select mod 8);
                  EndTransmission true] in
    isConnected c w
    = (status wire (trace w ++ probe) =? 0, after w probe).
Proof.
  intros chip select wire wp_pin c0 w0 w c probe.
  unfold isConnected.
  rewrite (chip_addr_of_select chip select wire wp_pin c0 w0 : _chip_addr c = _).
  change (_mode c) with 1. change (deref (_wire c)) with wire.
  cbn [Z.eqb negb Wire.endTransmission]. unfold Wire.beginTransmission.
  rewrite !emit_after, after_after. cbn [app after trace]. fold probe.
  destruct (status wire (trace w ++ probe) =? 0); reflexivity.
Qed.

(** ** States of the controller *)

Lemma u8_range z : 0 <= u8 z <= 255.
Proof.
  unfold u8. pose proof (Z.mod_pos_bound z (2 ^ 8) ltac:(lia)). lia.
Qed.

(** X9: whatever sequence of [begin] calls a controller has seen, either it
    is still exactly as constructed and inactive, or it is active with a bus
    bound and a base address in 0x50..0x57; the members always fit their
    types, so the wire pointer is never null where a method uses it. *)
Theorem reachable_controller_invariant :
  forall c,
    reachable c ->
    ((_mode c = 0 /\ c = AT24CXX_new) \/
     (_mode c = 1 /\ _wire c <> None /\ 0x50 <= _chip_addr c <= 0x57)) /\
    0 <= _chip_size c < 2 ^ 17 /\
    0 <= _page_size c <= 255 /\
    0 <= _addr_bytes c <= 3 /\
    0 <= _addr_ov_bits c <= 3 /\
    0 <= _wp_pin c <= 255.
Proof.
  intros c H. induction H as [|chip chip_addr wire wp_pin c w H IH].
  - split; [left; split; reflexivity|].
    vm_compute. intuition discriminate.
  - unfold begin. cbn [fst _mode _wire _chip_addr _chip_size _page_size
                         _addr_bytes _addr_ov_bits _wp_pin].
    split; [right; split; [reflexivity|split; [discriminate|]]|].
    { apply chip_addr_range. }
    split.
    { change 0x0001FFFF with (Z.ones 17). rewrite Z.land_ones by lia.
      apply Z.mod_pos_bound. lia. }
    split; [apply u8_range|].
    split.
    { rewrite (field_of_word _ _ 28 2) by (reflexivity || lia).
      pose proof (Z.mod_pos_bound (u32 chip / 2 ^ 28) (2 ^ 2) ltac:(lia)).
      rewrite u8_small; lia. }
    split; [|apply u8_range].
    rewrite (field_of_word _ _ 30 2) by (reflexivity || lia).
    pose proof (Z.mod_pos_bound (u32 chip / 2 ^ 30) (2 ^ 2) ltac:(lia)).
    rewrite u8_small; lia.
Qed.

Lemma reachable_controller_invariant_witness :
  ((_mode (fst (begin AT24C64 1 steady_wire 7
                  (fst (begin AT24C02 0 steady_wire (-1) AT24CXX_new idle))
                  idle)) = 0 /\
    fst (begin AT24C64 1 steady_wire 7
           (fst (begin AT24C02 0 steady_wire (-1) AT24CXX_new idle)) idle)
    = AT24CXX_new) \/
   (_mode (fst (begin AT24C64 1 steady_wire 7
                  (fst (begin AT24C02 0 steady_wire (-1) AT24CXX_new idle))
                  idle)) = 1 /\
    _wire (fst (begin AT24C64 1 steady_wire 7
                  (fst (begin AT24C02 0 steady_wire (-1) AT24CXX_new idle))
                  idle)) <> None /\
    0x50 <= _chip_addr
              (fst (begin AT24C64 1 steady_wire 7
                      (fst (begin AT24C02 0 steady_wire (-1) AT24CXX_new idle))
                      idle)) <= 0x57)) /\
  0 <= _chip_size
         (fst (begin AT24C64 1 steady_wire 7
                 (fst (begin AT24C02 0 steady_wire (-1) AT24CXX_new idle))
                 idle)) < 2 ^ 17 /\
  0 <= _page_size
         (fst (begin AT24C64 1 steady_wire 7
                 (fst (begin AT24C02 0 steady_wire (-1) AT24CXX_new idle))
                 idle)) <= 255 /\
  0 <= _addr_bytes
         (fst (begin AT24C64 1 steady_wire 7
                 (fst (begin AT24C02 0 steady_wire (-1) AT24CXX_new idle))
                 idle)) <= 3 /\
  0 <= _addr_ov_bits
         (fst (begin AT24C64 1 steady_wire 7
                 (fst (begin AT24C02 0 steady_wire (-1) AT24CXX_new idle))
                 idle)) <= 3 /\
  0 <= _wp_pin
         (fst (begin AT24C64 1 steady_wire 7
                 (fst (begin AT24C02 0 steady_wire (-1) AT24CXX_new idle))
                 idle)) <= 255.
Proof.
  apply (reachable_controller_invariant
           (fst (begin AT24C64 1 steady_wire 7
                   (fst (begin AT24C02 0 steady_wire (-1) AT24CXX_new idle))
                   idle))).
  apply reachable_begin. apply reachable_begin. apply reachable_new.
Defined.

(** ** More on reads *)

Lemma address_phase_world c address w :
  emit (EndTransmission false)
    (Wire.write (u8 address)
       (if 1 <? _addr_bytes c
        then Wire.write (u8 (Z.shiftr address 8))
               (Wire.beginTransmission (device_address c address) w)
        else Wire.beginTransmission (device_address c address) w))
  = after w (address_phase c address).
Proof.
  unfold address_phase, word_address, Wire.write, Wire.beginTransmission.
  destruct (1 <? _addr_bytes c); rewrite !emit_after, !after_after;
    reflexivity.
Qed.

Lemma transactions_requests evs :
  Forall (fun e => exists a q, e = RequestFrom a q) evs ->
  forall cur, transactions_from cur evs = [].
Proof.
  induction 1 as [|e l [a [q ->]] Hl IH]; intros cur; [reflexivity|].
  cbn [transactions_from]. apply IH.
Qed.

Lemma transactions_address_phase c address evs :
  Forall (fun e => exists a q, e = RequestFrom a q) evs ->
  transactions (address_phase c address ++ evs)
  = [{| dev_addr := device_address c address;
        sent := word_address c address;
        stop := false |}].
Proof.
  intros H. unfold transactions, address_phase.
  cbn [app transactions_from].
  rewrite <- app_assoc, transactions_from_writes.
  cbn [app transactions_from]. now rewrite transactions_requests.
Qed.

(** The calls of an accepted read, whatever the bus does and however far the
    call gets. *)
Lemma readN_shape fuel c address vals n w :
  _mode c <> 0 -> in_range c address n = true ->
  exists evs,
    trace (snd (readN fuel c address vals n w))
      = trace w ++ address_phase c address ++ evs /\
    Forall
      (fun e =>
         exists q, e = RequestFrom (device_address c address) q /\ 1 <= q <= 32)
      evs.
Proof.
  intros Hm Hr. unfold readN.
  replace (_mode c =? 0) with false by (symmetry; now apply Z.eqb_neq).
  rewrite Hr. cbn [negb andb Wire.endTransmission].
  rewrite Z.add_0_r. fold (device_address c address).
  rewrite address_phase_world.
  destruct (read_cycles_requests fuel c (device_address c address) n vals 0
              (after w (address_phase c address))) as [evs [E Hall]].
  exists evs. split; [|exact Hall].
  destruct (read_cycles _ _ _ _ _ _ _) as [[[u|] vals'] w'];
    cbn [snd fst] in *; rewrite E; cbn [after trace];
    now rewrite <- app_assoc.
Qed.

(** X10: an accepted read addresses the chip once, whatever the bus answers
    and however long the call runs: one transaction without stop whose
    device address and word address select the start address, and after it
    only [requestFrom] calls of 1 to 32 bytes to that same device address.
    The device address is not recomputed while the read advances. *)
Theorem read_addresses_once :
  forall chip select wire wp_pin c0 w0 fuel address str n w,
    In chip catalog ->
    0 <= address -> 1 <= n <= 255 ->
    address + n <= _chip_size (configured chip select wire wp_pin c0 w0) ->
    let c := configured chip select wire wp_pin c0 w0 in
    let calls := issued w (snd (read_str fuel c address str n w)) in
    exists t evs,
      calls = address_phase c address ++ evs /\
      Forall
        (fun e =>
           exists q,
             e = RequestFrom (device_address c address) q /\ 1 <= q <= 32)
        evs /\
      transactions calls = [t] /\
      stop t = false /\ sent t = word_address c address /\
      selected_address c t = address /\
      delays calls = [] /\ pin_calls calls = [].
Proof.
  intros chip select wire wp_pin c0 w0 fuel address str n w
    Hin Ha Hn Hs c calls.
  pose proof (configured_geometry chip select wire wp_pin c0 w0 Hin) as G.
  fold c in G, Hs.
  pose proof (geo_size c G) as Hsize.
  destruct (readN_shape fuel c address str n w) as [evs [E Hall]].
  { rewrite (geo_mode c G). discriminate. }
  { apply in_range_true; lia. }
  assert (Hc : calls = address_phase c address ++ evs)
    by (apply issued_app; exact E).
  assert (Hreq : Forall (fun e => exists a q, e = RequestFrom a q) evs).
  { eapply Forall_impl; [|exact Hall]. intros e [q [-> _]]. eauto. }
  eexists. exists evs. split; [exact Hc|]. split; [exact Hall|].
  rewrite Hc. split; [apply transactions_address_phase; exact Hreq|].
  cbn [stop sent]. split; [reflexivity|]. split; [reflexivity|].
  split.
  - pose proof (selected_address_page chip select wire wp_pin c0 w0
                  address [] Hin) as S.
    cbv zeta in S. fold c in S.
    unfold selected_address, page_transaction in S |- *.
    cbn [sent dev_addr] in S |- *. rewrite app_nil_r in S.
    apply S. lia.
  - unfold address_phase. cbn [app delays pin_calls].
    assert (Hd : forall bs rest,
               delays (map WriteByte bs ++ rest) = delays rest /\
               pin_calls (map WriteByte bs ++ rest) = pin_calls rest).
    { induction bs as [|b bs IHb]; intros rest; [split; reflexivity|].
      cbn [map app delays pin_calls]. apply IHb. }
    rewrite <- app_assoc.
    destruct (Hd (word_address c address) ([EndTransmission false] ++ evs))
      as [-> ->].
    cbn [app delays pin_calls].
    clear -Hreq. induction Hreq as [|e l [a [q ->]] Hl [IH1 IH2]];
      [split; reflexivity|].
    cbn [delays pin_calls]. split; assumption.
Qed.

Lemma read_addresses_once_witness :
  exists t evs,
    issued idle
      (snd (read_str 3 (configured AT24C08 0 null_wire (-1) AT24CXX_new idle)
              700 (fun _ => 0) 100 idle))
    = address_phase (configured AT24C08 0 null_wire (-1) AT24CXX_new idle) 700
      ++ evs /\
    Forall
      (fun e =>
         exists q,
           e = RequestFrom
                 (device_address
                    (configured AT24C08 0 null_wire (-1) AT24CXX_new idle) 700)
                 q /\ 1 <= q <= 32)
      evs /\
    transactions
      (issued idle
         (snd (read_str 3
                 (configured AT24C08 0 null_wire (-1) AT24CXX_new idle)
                 700 (fun _ => 0) 100 idle))) = [t] /\
    stop t = false /\
    sent t
    = word_address (configured AT24C08 0 null_wire (-1) AT24CXX_new idle) 700 /\
    selected_address (configured AT24C08 0 null_wire (-1) AT24CXX_new idle) t
    = 700 /\
    delays
      (issued idle
         (snd (read_str 3
                 (configured AT24C08 0 null_wire (-1) AT24CXX_new idle)
                 700 (fun _ => 0) 100 idle))) = [] /\
    pin_calls
      (issued idle
         (snd (read_str 3
                 (configured AT24C08 0 null_wire (-1) AT24CXX_new idle)
                 700 (fun _ => 0) 100 idle))) = [].
Proof.
  apply (read_addresses_once AT24C08 0 null_wire (-1) AT24CXX_new idle
           3%nat 700 (fun _ => 0) 100 idle).
  - simpl. auto 10.
  - lia.
  - lia.
  - vm_compute. discriminate.
Defined.

(** X11: against a bus that delivers what is asked for, the [char] overload
    of [read] returns true, and the bytes the bus delivered, in order, are
    in cells 0 .. n-1 of the caller's array; no other cell changes. *)
Theorem read_str_stores_delivered_bytes :
  forall chip select wire wp_pin c0 w0 fuel address str n w,
    In chip catalog -> responsive wire ->
    0 <= address -> 1 <= n <= 255 ->
    address + n <= _chip_size (configured chip select wire wp_pin c0 w0) ->
    (256 <= fuel)%nat ->
    let c := configured chip select wire wp_pin c0 w0 in
    exists evs str' w',
      read_str fuel c address str n w = (Some true, str', w') /\
      issued w w' = address_phase c address ++ evs /\
      Z.of_nat (length (delivered wire (trace w ++ address_phase c address)
                          evs)) = n /\
      (forall i, 0 <= i < n ->
         str' i =
         u8 (nth (Z.to_nat i)
               (delivered wire (trace w ++ address_phase c address) evs) 0)) /\
      (forall i, i < 0 \/ n <= i -> str' i = str i).
Proof.
  intros chip select wire wp_pin c0 w0 fuel address str n w
    Hin Hresp Ha Hn Hs Hfuel c.
  pose proof (configured_geometry chip select wire wp_pin c0 w0 Hin) as G.
  fold c in G, Hs.
  pose proof (geo_size c G) as Hsize.
  destruct (readN_run fuel c address str n w) as [evs [str' [w' H]]];
    try lia.
  { rewrite (geo_mode c G). discriminate. }
  { exact Hresp. }
  cbv zeta in H. destruct H as [E [Ht [Hall [Htot [Hin' Hout]]]]].
  change (deref (_wire c)) with wire in Hin'.
  fold (address_phase c address) in Ht, Hin'.
  exists evs, str', w'. split; [exact E|].
  split; [apply issued_app; exact Ht|].
  split; [|split; [exact Hin' | exact Hout]].
  rewrite (delivered_length wire evs _ Hresp); [exact Htot|].
  eapply Forall_impl; [|exact Hall].
  intros e [q [-> Hq]]. eexists _, q. split; [reflexivity|lia].
Qed.

Lemma steady_wire_responsive : responsive steady_wire.
Proof.
  intros past address quantity. cbn [steady_wire reply].
  apply repeat_length.
Qed.

Lemma read_str_stores_delivered_bytes_witness :
  exists evs str' w',
    read_str 256 (configured AT24C02 0 steady_wire (-1) AT24CXX_new idle)
      3 (fun _ => 0) 26 idle = (Some true, str', w') /\
    issued idle w'
    = address_phase (configured AT24C02 0 steady_wire (-1) AT24CXX_new idle) 3
      ++ evs /\
    Z.of_nat
      (length
         (delivered steady_wire
            (trace idle
             ++ address_phase
                  (configured AT24C02 0 steady_wire (-1) AT24CXX_new idle) 3)
            evs)) = 26 /\
    (forall i, 0 <= i < 26 ->
       str' i =
       u8 (nth (Z.to_nat i)
             (delivered steady_wire
                (trace idle
                 ++ address_phase
                      (configured AT24C02 0 steady_wire (-1) AT24CXX_new idle)
                      3)
                evs) 0)) /\
    (forall i, i < 0 \/ 26 <= i -> str' i = 0).
Proof.
  apply (read_str_stores_delivered_bytes
           AT24C02 0 steady_wire (-1) AT24CXX_new idle 256%nat
           3 (fun _ => 0) 26 idle).
  - simpl. auto 10.
  - exact steady_wire_responsive.
  - lia.
  - lia.
  - vm_compute. discriminate.
  - lia.
Defined.

Lemma ceil_div_32_step r :
  0 < r ->
  ceil_div r 32 = 1 + ceil_div (r - Z.min 32 r) 32.
Proof.
  intros Hr. apply ceil_div_unique; [lia|].
  pose proof (ceil_div_bounds (r - Z.min 32 r) 32 ltac:(lia)). lia.
Qed.

Lemma read_cycles_request_count fuel c addr n : forall vals bytes_read w,
  responsive (deref (_wire c)) ->
  0 <= bytes_read <= n -> n <= 255 ->
  (Z.to_nat (n - bytes_read) < fuel)%nat ->
  Z.of_nat
    (length
       (requests
          (issued w (snd (read_cycles fuel c addr n vals bytes_read w)))))
  = ceil_div (n - bytes_read) 32.
Proof.
  induction fuel as [|fuel IH]; intros vals bytes_read w Hresp Hb Hn Hfuel;
    [lia|].
  cbn [read_cycles].
  destruct (bytes_read <? n) eqn:Eb.
  - apply Z.ltb_lt in Eb.
    set (q := if I2C_READ_BUFFER_SIZE <? n - bytes_read
              then I2C_READ_BUFFER_SIZE else u8 (n - bytes_read)).
    assert (Hq : q = Z.min 32 (n - bytes_read)).
    { subst q. unfold I2C_READ_BUFFER_SIZE.
      destruct (32 <? n - bytes_read) eqn:E.
      - apply Z.ltb_lt in E. lia.
      - apply Z.ltb_ge in E. rewrite u8_small; lia. }
    set (e := RequestFrom addr q).
    set (bs := reply (deref (_wire c)) (trace w ++ [e]) addr q).
    assert (Hlen : length bs = Z.to_nat q) by apply Hresp.
    unfold Wire.requestFrom, Wire.available. cbn [emit trace rx].
    fold e. fold bs. rewrite Nat2Z.id.
    rewrite (drain_run bs) by (cbn [rx]; (reflexivity || lia)).
    cbn [trace].
    set (w2 := {| trace := trace w ++ [e]; rx := [] |}).
    set (vals2 := store_list vals bytes_read (map u8 bs)).
    set (b2 := bytes_read + Z.of_nat (length bs)).
    specialize (IH vals2 b2 w2 Hresp ltac:(subst b2; lia) Hn
                  ltac:(subst b2; lia)).
    destruct (read_cycles_requests fuel c addr n vals2 b2 w2)
      as [evs [E _]].
    rewrite (issued_app _ _ _ E) in IH.
    assert (E' : trace (snd (read_cycles fuel c addr n vals2 b2 w2))
                 = trace w ++ e :: evs).
    { rewrite E. subst w2. cbn [trace]. now rewrite <- app_assoc. }
    rewrite (issued_app _ _ _ E').
    change (requests (e :: evs)) with (q :: requests evs).
    cbn [length]. rewrite Nat2Z.inj_succ, IH.
    rewrite (ceil_div_32_step (n - bytes_read)) by lia.
    subst b2. rewrite Hlen, Hq.
    replace (n - (bytes_read + Z.of_nat (Z.to_nat (Z.min 32 (n - bytes_read)))))
      with (n - bytes_read - Z.min 32 (n - bytes_read)) by lia.
    lia.
  - apply Z.ltb_ge in Eb. cbn [snd]. rewrite issued_same.
    replace (n - bytes_read) with 0 by lia. reflexivity.
Qed.

(** X12: against a bus that delivers what is asked for, a read of n bytes
    makes ceil(n / 32) [requestFrom] calls, none for more than the 32 bytes
    of the bus buffer, and together they ask for n bytes. *)
Theorem read_str_request_count :
  forall chip select wire wp_pin c0 w0 fuel address str n w,
    In chip catalog -> responsive wire ->
    0 <= address -> 1 <= n <= 255 ->
    address + n <= _chip_size (configured chip select wire wp_pin c0 w0) ->
    (256 <= fuel)%nat ->
    let c := configured chip select wire wp_pin c0 w0 in
    let asked :=
      requests (issued w (snd (read_str fuel c address str n w))) in
    Z.of_nat (length asked) = ceil_div n 32 /\
    Forall (fun q => 1 <= q <= 32) asked /\
    total asked = n.
Proof.
  intros chip select wire wp_pin c0 w0 fuel address str n w
    Hin Hresp Ha Hn Hs Hfuel c asked.
  pose proof (configured_geometry chip select wire wp_pin c0 w0 Hin) as G.
  fold c in G, Hs.
  pose proof (geo_size c G) as Hsize.
  destruct (read_str_transfers chip select wire wp_pin c0 w0 fuel address
              str n w Hin Hresp Ha Hn Hs Hfuel)
    as [str' [w' [E [Hall [Htot _]]]]].
  fold c in E.
  assert (Hasked : asked = requests (issued w w'))
    by (subst asked; rewrite E; reflexivity).
  split; [|rewrite Hasked; split; assumption].
  subst asked. unfold read_str, readN.
  rewrite (geo_mode c G).
  replace (in_range c address n) with true
    by (symmetry; apply in_range_true; lia).
  cbn [Z.eqb negb andb Wire.endTransmission].
  rewrite Z.add_0_r. fold (device_address c address).
  rewrite address_phase_world.
  set (w1 := after w (address_phase c address)).
  pose proof (read_cycles_request_count fuel c (device_address c address) n
                str 0 w1 Hresp ltac:(lia) ltac:(lia) ltac:(lia)) as Hcount.
  rewrite Z.sub_0_r in Hcount. rewrite <- Hcount.
  destruct (read_cycles_requests fuel c (device_address c address) n str 0 w1)
    as [evs [Ht _]].
  rewrite (issued_app _ _ _ Ht).
  assert (Ht' : trace (snd (read_cycles fuel c (device_address c address) n
                              str 0 w1))
                = trace w ++ address_phase c address ++ evs).
  { rewrite Ht. subst w1. cbn [after trace]. now rewrite <- app_assoc. }
  destruct (read_cycles fuel c (device_address c address) n str 0 w1)
    as [[[u|] vals'] w2]; cbn [snd] in *;
    rewrite (issued_app _ _ _ Ht');
    unfold address_phase; cbn [app requests];
    rewrite <- app_assoc, !requests_app, requests_writes; reflexivity.
Qed.

Lemma read_str_request_count_witness :
  Z.of_nat
    (length
       (requests
          (issued idle
             (snd (read_str 256
                     (configured AT24C64 1 steady_wire (-1) AT24CXX_new idle)
                     62 (fun _ => 0) 100 idle)))))
  = ceil_div 100 32 /\
  Forall (fun q => 1 <= q <= 32)
    (requests
       (issued idle
          (snd (read_str 256
                  (configured AT24C64 1 steady_wire (-1) AT24CXX_new idle)
                  62 (fun _ => 0) 100 idle)))) /\
  total
    (requests
       (issued idle
          (snd (read_str 256
                  (configured AT24C64 1 steady_wire (-1) AT24CXX_new idle)
                  62 (fun _ => 0) 100 idle)))) = 100.
Proof.
  apply (read_str_request_count
           AT24C64 1 steady_wire (-1) AT24CXX_new idle 256%nat
           62 (fun _ => 0) 100 idle).
  - simpl. auto 10.
  - exact steady_wire_responsive.
  - lia.
  - lia.
  - vm_compute. discriminate.
  - lia.
Defined.

Lemma read_cycles_silent fuel c addr n vals : forall w,
  silent (deref (_wire c)) -> 1 <= n <= 255 ->
  exists w',
    read_cycles fuel c addr n vals 0 w = (None, vals, w') /\
    trace w' = trace w ++ repeat (RequestFrom addr (Z.min 32 n)) fuel.
Proof.
  induction fuel as [|fuel IH]; intros w Hsil Hn.
  - exists w. cbn. now rewrite app_nil_r.
  - cbn [read_cycles].
    replace (0 <? n) with true by (symmetry; apply Z.ltb_lt; lia).
    rewrite Z.sub_0_r.
    assert (Hq : (if I2C_READ_BUFFER_SIZE <? n
                  then I2C_READ_BUFFER_SIZE else u8 n) = Z.min 32 n).
    { unfold I2C_READ_BUFFER_SIZE. destruct (32 <? n) eqn:E.
      - apply Z.ltb_lt in E. lia.
      - apply Z.ltb_ge in E. rewrite u8_small; lia. }
    rewrite Hq.
    unfold Wire.requestFrom, Wire.available. cbn [emit trace rx].
    rewrite Hsil. cbn [length Z.of_nat Z.to_nat drain].
    destruct (IH {| trace := trace w ++ [RequestFrom addr (Z.min 32 n)];
                    rx := [] |} Hsil Hn) as [w' [E Ht]].
    exists w'. split; [exact E|].
    rewrite Ht. cbn [trace repeat]. now rewrite <- app_assoc.
Qed.

(** X13: on a bus where no chip answers, an accepted read of at least one
    byte never returns: after any number of steps it is still asking, one
    [requestFrom] per step for the same bytes, and has stored nothing. *)
Theorem read_never_returns_on_silent_bus :
  forall chip select wire wp_pin c0 w0 fuel address str n w,
    In chip catalog -> silent wire ->
    0 <= address -> 1 <= n <= 255 ->
    address + n <= _chip_size (configured chip select wire wp_pin c0 w0) ->
    let c := configured chip select wire wp_pin c0 w0 in
    exists w',
      read_str fuel c address str n w = (None, str, w') /\
      requests (issued w w') = repeat (Z.min 32 n) fuel.
Proof.
  intros chip select wire wp_pin c0 w0 fuel address str n w
    Hin Hsil Ha Hn Hs c.
  pose proof (configured_geometry chip select wire wp_pin c0 w0 Hin) as G.
  fold c in G, Hs.
  pose proof (geo_size c G) as Hsize.
  unfold read_str, readN.
  rewrite (geo_mode c G).
  replace (in_range c address n) with true
    by (symmetry; apply in_range_true; lia).
  cbn [Z.eqb negb andb Wire.endTransmission].
  rewrite Z.add_0_r. fold (device_address c address).
  rewrite address_phase_world.
  destruct (read_cycles_silent fuel c (device_address c address) n str
              (after w (address_phase c address)) Hsil Hn) as [w' [E Ht]].
  exists w'. rewrite E. split; [reflexivity|].
  cbn [after trace] in Ht. rewrite <- app_assoc in Ht.
  rewrite (issued_app _ _ _ Ht).
  unfold address_phase. cbn [app requests].
  rewrite <- app_assoc, !requests_app, requests_writes. cbn [app requests].
  clear. induction fuel as [|fuel IH]; [reflexivity|].
  cbn [repeat requests]. now rewrite IH.
Qed.

Lemma null_wire_silent : silent null_wire.
Proof. intros past address quantity. reflexivity. Qed.

Lemma read_never_returns_on_silent_bus_witness :
  exists w',
    read_str 1000 (configured AT24C02 0 null_wire (-1) AT24CXX_new idle)
      3 (fun _ => 0) 26 idle = (None, (fun _ => 0), w') /\
    requests (issued idle w') = repeat (Z.min 32 26) 1000.
Proof.
  apply (read_never_returns_on_silent_bus
           AT24C02 0 null_wire (-1) AT24CXX_new idle 1000%nat
           3 (fun _ => 0) 26 idle).
  - simpl. auto 10.
  - exact null_wire_silent.
  - lia.
  - lia.
  - vm_compute. discriminate.
Defined.

(** X14: a read of zero bytes, at any address up to and including the
    capacity, is accepted on any bus: it returns true after the address
    phase alone, asks for nothing and leaves the caller's array as it was. *)
Theorem read_of_no_bytes :
  forall chip select wire wp_pin c0 w0 fuel address str w,
    In chip catalog ->
    0 <= address <= _chip_size (configured chip select wire wp_pin c0 w0) ->
    (1 <= fuel)%nat ->
    let c := configured chip select wire wp_pin c0 w0 in
    read_str fuel c address str 0 w
    = (Some true, str, after w (address_phase c address)).
Proof.
  intros chip select wire wp_pin c0 w0 fuel address str w Hin Ha Hfuel c.
  pose proof (configured_geometry chip select wire wp_pin c0 w0 Hin) as G.
  fold c in G, Ha.
  pose proof (geo_size c G) as Hsize.
  unfold read_str, readN.
  rewrite (geo_mode c G).
  replace (in_range c address 0) with true
    by (symmetry; apply in_range_true; lia).
  cbn [Z.eqb negb andb Wire.endTransmission].
  rewrite Z.add_0_r. fold (device_address c address).
  rewrite address_phase_world.
  destruct fuel as [|fuel]; [lia|]. reflexivity.
Qed.

Lemma read_of_no_bytes_witness :
  read_str 1 (configured AT24C02 0 null_wire (-1) AT24CXX_new idle)
    256 (fun _ => 0) 0 idle
  = (Some true, (fun _ => 0),
     after idle
       (address_phase (configured AT24C02 0 null_wire (-1) AT24CXX_new idle)
          256)).
Proof.
  apply (read_of_no_bytes AT24C02 0 null_wire (-1) AT24CXX_new idle
           1%nat 256 (fun _ => 0) idle).
  - simpl. auto 10.
  - split; [lia | vm_compute; discriminate].
  - lia.
Defined.

(** ** The single-byte read *)

(** X15: [read(address)] has no way to report failure: on a controller that
    is not active, or for an address outside the chip, it makes no call and
    hands back whatever its uninitialised local held. *)
Theorem read_byte_failure_is_silent :
  forall c fuel address byte0 w,
    0 <= address < 65536 ->
    _mode c = 0 \/ address + 1 > _chip_size c ->
    read_byte fuel c address byte0 w = (Some byte0, w).
Proof.
  intros c fuel address byte0 w Ha [Hm | Hs]; unfold read_byte.
  - unfold readN. rewrite Hm. reflexivity.
  - rewrite readN_rejects by lia. reflexivity.
Qed.

Lemma read_byte_failure_is_silent_witness :
  read_byte 256 (configured AT24C02 0 steady_wire (-1) AT24CXX_new idle)
    256 0x3C idle = (Some 0x3C, idle).
Proof.
  apply (read_byte_failure_is_silent
           (configured AT24C02 0 steady_wire (-1) AT24CXX_new idle)
           256%nat 256 0x3C idle).
  - lia.
  - right. vm_compute. reflexivity.
Defined.

(** X16: inside the chip and against a bus that delivers what is asked for,
    [read(address)] makes the address phase and one [requestFrom] for one
    byte, and returns the byte delivered. *)
Theorem read_byte_returns_delivered_byte :
  forall chip select wire wp_pin c0 w0 fuel address byte0 w,
    In chip catalog -> responsive wire ->
    0 <= address < _chip_size (configured chip select wire wp_pin c0 w0) ->
    (2 <= fuel)%nat ->
    let c := configured chip select wire wp_pin c0 w0 in
    let calls :=
      address_phase c address
        ++ [RequestFrom (device_address c address) 1] in
    exists b,
      reply wire (trace w ++ calls) (device_address c address) 1 = [b] /\
      read_byte fuel c address byte0 w
      = (Some (u8 b), {| trace := trace w ++ calls; rx := [] |}).
Proof.
  intros chip select wire wp_pin c0 w0 fuel address byte0 w
    Hin Hresp Ha Hfuel c calls.
  pose proof (configured_geometry chip select wire wp_pin c0 w0 Hin) as G.
  fold c in G, Ha.
  pose proof (geo_size c G) as Hsize.
  set (dev := device_address c address) in *.
  pose proof (Hresp (trace w ++ calls) dev 1) as Hlen.
  destruct (reply wire (trace w ++ calls) dev 1) as [|b [|b' bs]] eqn:Er;
    try discriminate Hlen.
  exists b. split; [reflexivity|].
  unfold read_byte, readN.
  rewrite (geo_mode c G).
  replace (in_range c address 1) with true
    by (symmetry; apply in_range_true; lia).
  cbn [Z.eqb negb andb Wire.endTransmission].
  rewrite Z.add_0_r. fold (device_address c address). fold dev.
  rewrite address_phase_world.
  destruct fuel as [|[|fuel]]; try lia.
  cbn [read_cycles]. change (0 <? 1) with true. cbv iota.
  change (if I2C_READ_BUFFER_SIZE <? 1 - 0
          then I2C_READ_BUFFER_SIZE else u8 (1 - 0)) with 1.
  unfold Wire.requestFrom, Wire.available.
  cbn [emit after trace rx]. change (deref (_wire c)) with wire.
  rewrite <- app_assoc. fold calls. rewrite Er.
  cbn [length Z.of_nat Pos.of_succ_nat Z.to_nat Pos.to_nat Pos.iter_op
         drain Wire.read rx trace].
  change (u8 (0 + 1)) with 1. change (1 <? 1) with false. cbv iota.
  unfold store. cbn [Z.eqb]. reflexivity.
Qed.

Lemma read_byte_returns_delivered_byte_witness :
  exists b,
    reply steady_wire
      (trace idle
       ++ address_phase
            (configured AT24C16 0 steady_wire (-1) AT24CXX_new idle) 2047
       ++ [RequestFrom
             (device_address
                (configured AT24C16 0 steady_wire (-1) AT24CXX_new idle) 2047)
             1])
      (device_address
         (configured AT24C16 0 steady_wire (-1) AT24CXX_new idle) 2047) 1
    = [b] /\
    read_byte 2 (configured AT24C16 0 steady_wire (-1) AT24CXX_new idle)
      2047 0 idle
    = (Some (u8 b),
       {| trace :=
            trace idle
            ++ address_phase
                 (configured AT24C16 0 steady_wire (-1) AT24CXX_new idle) 2047
            ++ [RequestFrom
                  (device_address
                     (configured AT24C16 0 steady_wire (-1) AT24CXX_new idle)
                     2047) 1];
          rx := [] |}).
Proof.
  apply (read_byte_returns_delivered_byte
           AT24C16 0 steady_wire (-1) AT24CXX_new idle 2%nat 2047 0 idle).
  - simpl. auto 10.
  - exact steady_wire_responsive.
  - split; [lia | vm_compute; reflexivity].
  - lia.
Defined.

(** ** Inactive controllers and the write-protect pin *)

(** X17: while [_mode] is 0, [isConnected] and every overload of [write] and
    [read] leave the world untouched; those with a [bool] result return
    false. *)
Theorem inactive_controller_leaves_bus_alone :
  forall c fuel op w,
    _mode c = 0 ->
    op <> SetWriteProtect -> op <> ClearWriteProtect ->
    perform fuel c op w = w /\
    (verdict fuel c op w = Some false \/
     exists address byte0, op = ReadOne address byte0).
Proof.
  intros c fuel op w Hm H1 H2.
  destruct op; try contradiction; cbn [perform verdict];
    unfold isConnected, write_byte, write_vals, write_str,
      read_byte, read_vals, read_str, writeN, readN;
    rewrite Hm; cbn [Z.eqb negb andb fst snd];
    (split; [reflexivity | (left; reflexivity) || (right; eauto)]).
Qed.

Lemma inactive_controller_leaves_bus_alone_witness :
  perform 256 AT24CXX_new (WriteStr 3 (fun i => i) 26) idle = idle /\
  (verdict 256 AT24CXX_new (WriteStr 3 (fun i => i) 26) idle = Some false \/
   exists address byte0, WriteStr 3 (fun i => i) 26 = ReadOne address byte0).
Proof.
  apply (inactive_controller_leaves_bus_alone
           AT24CXX_new 256%nat (WriteStr 3 (fun i => i) 26) idle).
  - reflexivity.
  - discriminate.
  - discriminate.
Defined.

(** X18: with a write-protect pin below 255 given to [begin], [begin] makes
    the pin an output and drives it low, [setWriteProtect] drives it high
    and [clearWriteProtect] low, each with a single call and without
    touching the bus. *)
Theorem write_protect_pin_is_driven :
  forall chip select wire pin c0 w0 w,
    0 <= pin < 255 ->
    let c := configured chip select wire pin c0 w0 in
    snd (begin chip select wire pin c0 w0)
      = after w0 [PinMode pin OUTPUT; DigitalWrite pin LOW] /\
    setWriteProtect c w = after w [DigitalWrite pin HIGH] /\
    clearWriteProtect c w = after w [DigitalWrite pin LOW].
Proof.
  intros chip select wire pin c0 w0 w Hp c.
  assert (Hpin : u8 pin = pin) by (apply u8_small; lia).
  split.
  - unfold begin. cbn [snd]. unfold wp_pin_set. cbn [_wp_pin].
    rewrite Hpin.
    replace (pin =? -1) with false by (symmetry; apply Z.eqb_neq; lia).
    cbn [negb]. unfold digitalWrite, pinMode.
    now rewrite !emit_after, after_after.
  - apply (write_protect_drives_pin chip select wire pin c0 w0 w). lia.
Qed.

Lemma write_protect_pin_is_driven_witness :
  snd (begin AT24C02 0 steady_wire 17 AT24CXX_new idle)
    = after idle [PinMode 17 OUTPUT; DigitalWrite 17 LOW] /\
  setWriteProtect (configured AT24C02 0 steady_wire 17 AT24CXX_new idle) idle
    = after idle [DigitalWrite 17 HIGH] /\
  clearWriteProtect (configured AT24C02 0 steady_wire 17 AT24CXX_new idle) idle
    = after idle [DigitalWrite 17 LOW].
Proof.
  apply (write_protect_pin_is_driven AT24C02 0 steady_wire 17 AT24CXX_new
           idle idle).
  lia.
Defined.

(** X19: an accepted write never looks at what the bus reports: the result
    and the calls made are the same whatever bus object the controller was
    bound to, also one whose [endTransmission] always reports failure. *)
Theorem write_ignores_bus_status :
  forall chip select wire wire' wp_pin c0 w0 fuel address vals n w,
    In chip catalog ->
    0 <= address -> 1 <= n <= 255 ->
    address + n <= _chip_size (configured chip select wire wp_pin c0 w0) ->
    (256 <= fuel)%nat ->
    fst (write_vals fuel (configured chip select wire wp_pin c0 w0)
           address vals n w) = Some true /\
    write_vals fuel (configured chip select wire wp_pin c0 w0)
      address vals n w
    = write_vals fuel (configured chip select wire' wp_pin c0 w0)
        address vals n w.
Proof.
  intros chip select wire wire' wp_pin c0 w0 fuel address vals n w
    Hin Ha Hn Hs Hfuel.
  pose proof (configured_geometry chip select wire wp_pin c0 w0 Hin) as G.
  pose proof (configured_geometry chip select wire' wp_pin c0 w0 Hin) as G'.
  unfold write_vals.
  rewrite (writeN_run fuel _ address vals n w G Ha Hn Hs Hfuel).
  rewrite (writeN_run fuel _ address vals n w G' Ha Hn Hs Hfuel).
  split; reflexivity.
Qed.

Lemma write_ignores_bus_status_witness :
  fst (write_vals 256 (configured AT24C02 0 steady_wire (-1) AT24CXX_new idle)
         3 (fun i => i) 26 idle) = Some true /\
  write_vals 256 (configured AT24C02 0 steady_wire (-1) AT24CXX_new idle)
    3 (fun i => i) 26 idle
  = write_vals 256 (configured AT24C02 0 null_wire (-1) AT24CXX_new idle)
      3 (fun i => i) 26 idle.
Proof.
  apply (write_ignores_bus_status
           AT24C02 0 steady_wire null_wire (-1) AT24CXX_new idle 256%nat
           3 (fun i => i) 26 idle).
  - simpl. auto 10.
  - lia.
  - lia.
  - vm_compute. discriminate.
  - lia.
Defined.

(** ** Paging against the catalog *)

(** C1: on a controller configured for any chip of the catalog, a write of
    [n] bytes at [address], 1 <= n <= 255 and address + n within the word
    size of the chip, returns true and issues exactly
    ceil((n + address mod P) / P) write transactions, none with more than P
    payload bytes, where P is the page size of the catalog entry, or 16 on a
    part with two address bytes when n > 30.  On the AT24C02 (page 8),
    [write(3, buf, 26)] issues four transactions whose word-address bytes on
    the bus are 3, 8, 16 and 24 and whose payloads have 5, 8, 8 and 5
    bytes. *)
Theorem C1_paged_write_transactions :
  (forall size page bytes ov select wire wp_pin c0 w0 fuel address vals n w,
      In (size, page, bytes, ov) descriptors ->
      0 <= address -> 1 <= n <= 255 -> address + n <= size ->
      (256 <= fuel)%nat ->
      let c := configured (chip_constant size page bytes ov)
                 select wire wp_pin c0 w0 in
      let p := spec_page_size page bytes n in
      In (chip_constant size page bytes ov) catalog /\
      exists evs,
        write_vals fuel c address vals n w = (Some true, after w evs) /\
        Z.of_nat (length (transactions evs))
          = ceil_div (n + address mod p) p /\
        Forall
          (fun t =>
             Z.of_nat (length (sent t)) - bytes <= p /\
             payload_length c t <= p)
          (transactions evs))
  /\
  catalog
  = map (fun d => let '(size, page, bytes, ov) := d in
                  chip_constant size page bytes ov) descriptors
  /\
  (forall select wp_pin vals,
      let c := configured AT24C02 select steady_wire wp_pin AT24CXX_new idle in
      let r := write_vals 256 c 3 vals 26 idle in
      fst r = Some true /\
      map (fun ct => (fst ct, sent (snd ct), payload_length c (snd ct)))
        (with_cursors c 3 (transactions (trace (snd r))))
      = [(3, 3 :: map vals [0; 1; 2; 3; 4], 5);
         (8, 8 :: map vals [5; 6; 7; 8; 9; 10; 11; 12], 8);
         (16, 16 :: map vals [13; 14; 15; 16; 17; 18; 19; 20], 8);
         (24, 24 :: map vals [21; 22; 23; 24; 25], 5)]).
Proof.
  split; [|split; [reflexivity|]].
  - intros size page bytes ov select wire wp_pin c0 w0 fuel address vals n w
      Hd Ha Hn Hs Hfuel c p.
    destruct (descriptor_fields size page bytes ov select wire wp_pin c0 w0 Hd)
      as [Hin [Hsize [_ [Hb [_ [Hbytes _]]]]]].
    fold c in Hsize, Hb.
    split; [exact Hin|].
    pose proof (configured_geometry _ select wire wp_pin c0 w0 Hin) as G.
    fold c in G.
    pose proof (effective_page_size_descriptor size page bytes ov select wire
                  wp_pin c0 w0 n Hd) as Hp.
    fold c in Hp. fold p in Hp.
    pose proof (effective_page_size_range c n G) as Hr. rewrite Hp in Hr.
    pose proof (Z.mod_pos_bound address p ltac:(lia)) as Hj.
    pose proof (ceil_div_bounds (n + address mod p) p ltac:(lia)) as Hc.
    eexists. split; [apply writeN_run; (assumption || lia)|].
    rewrite Hp, transactions_pages. split.
    + rewrite length_map, chunks_length. rewrite Z2Nat.id; [reflexivity | nia].
    + apply Forall_map.
      eapply Forall_impl; [|apply chunks_at_most_page; lia].
      intros ch Hch. cbv beta in Hch.
      rewrite payload_length_page. split; [|lia].
      unfold page_transaction, word_address. cbn [sent].
      rewrite !length_app, chunk_data_length, Hb.
      destruct Hbytes as [E | E]; rewrite E;
        [change (1 <? 1) with false | change (1 <? 2) with true];
        cbn [length]; lia.
  - intros select wp_pin vals c r.
    pose proof (configured_geometry AT24C02 select steady_wire wp_pin
                  AT24CXX_new idle ltac:(simpl; auto)) as G.
    fold c in G.
    assert (E : r = (Some true,
                after idle
                  (flat_map
                     (fun ch =>
                        page_events c (3 + fst ch) (chunk_data vals ch))
                     (chunks 4 8 26 3 0)))).
    { subst r. unfold write_vals.
      rewrite writeN_run; try lia; try exact G.
      - reflexivity.
      - subst c. vm_compute. discriminate. }
    rewrite E. cbn [fst snd after trace idle app].
    split; [reflexivity|].
    rewrite transactions_pages.
    change (with_cursors c 3) with (with_cursors c (3 + 0)).
    rewrite (with_cursors_pages c 3 vals 4 8 26 3 0) by lia.
    rewrite map_map. cbn [chunks map fst snd].
    rewrite !payload_length_page. reflexivity.
Qed.

Lemma C1_paged_write_transactions_witness :
  In (chip_constant 8192 32 2 0) catalog /\
  exists evs,
    write_vals 256
      (configured (chip_constant 8192 32 2 0) 1 steady_wire (-1)
         AT24CXX_new idle)
      0 (fun i => i) 40 idle = (Some true, after idle evs) /\
    Z.of_nat (length (transactions evs))
      = ceil_div (40 + 0 mod spec_page_size 32 2 40) (spec_page_size 32 2 40) /\
    Forall
      (fun t =>
         Z.of_nat (length (sent t)) - 2 <= spec_page_size 32 2 40 /\
         payload_length
           (configured (chip_constant 8192 32 2 0) 1 steady_wire (-1)
              AT24CXX_new idle) t <= spec_page_size 32 2 40)
      (transactions evs).
Proof.
  apply (proj1 C1_paged_write_transactions
           8192 32 2 0 1 steady_wire (-1) AT24CXX_new idle 256%nat
           0 (fun i => i) 40 idle).
  - simpl. auto 12.
  - lia.
  - lia.
  - lia.
  - lia.
Defined.
